(** * DevOps-Nexus: the cherry-pick job server and its worker

    A shallow embedding of [servers/github-helper/src/index.ts]: the MCP
    tool handlers with [enqueueCherryPickJob] (the version built on the
    SDK, which calls [addJobToQueue]), the earlier server that reads
    requests line by line (module [Stdio]), and the worker with [run],
    [processJob], [sendWebhook] and the body of the polling loop of [main].

    Programs are functions from a world to an outcome, a value returned
    or an exception thrown, and the world afterwards.  The world holds
    what the programs change (the clones on disk, the remote
    repositories, the working directory, the job store) and the trace of
    what they did (log lines, commands, requests), so that properties can
    speak of both.

    The worker drives external programs ([gh], [git], [grep]) through
    [execSync].  They are interpreted over an in-memory repository
    model; what the model cannot know (which pull requests the host
    reports, whether a commit applies cleanly and under which identifier
    it is recorded, what a failing command writes to the standard error,
    which identifiers are drawn) is collected in [Env].
    The texts exchanged in JSON are kept in parsed form. *)

From Stdlib Require Import Ascii String.
From stdpp Require Import gmap strings list fin_maps pretty sorting.

(** ** Data of the source *)

(** [type CherryPickParamsType]; [callbackUrl?] may be absent. *)
Record CherryPickParamsType := mkParams {
  repository : string;
  targetBranch : string;
  prFilterQuery : string;
  callbackUrl : option string
}.

(** The job states of the specification; the server only ever reports
    ['queued'], [sendWebhook] only ['completed'] and ['failed']. *)
Inductive JobState := queued | running | completed | failed.

#[global] Instance JobState_eq_dec : EqDecision JobState.
Proof. solve_decision. Defined.

(** [type JobStatusType], the value returned to the submitter. *)
Record JobStatusType := mkJobStatus {
  jobId : string;
  status : JobState;
  message : string
}.

(** One element of the array printed by
    [gh pr list --json mergedAt,number,mergeCommit]. *)
Record PullRequest := mkPR {
  mergedAt : string;
  number : Z;
  mergeCommit_oid : string
}.

(** [{ ...job.params, jobId: job.id }] as built in [main]. *)
Record JobParams := mkJobParams {
  jp_params : CherryPickParamsType;
  jp_jobId : string
}.

(** The body posted by [sendWebhook]. *)
Record Payload := mkPayload {
  payload_jobId : string;
  payload_status : JobState;
  payload_repository : string;
  payload_error : option string
}.

(** A record of the job store. *)
Record Job := mkJob {
  job_id : string;
  job_params : CherryPickParamsType;
  job_state : JobState;
  job_error : option string
}.

(** The arguments of a tool call before validation: a field is absent or
    holds a string. *)
Record ToolArguments := mkArgs {
  arg_repository : option string;
  arg_targetBranch : option string;
  arg_prFilterQuery : option string;
  arg_callbackUrl : option string
}.

(** ** JavaScript string helpers *)

(** A string is truthy unless it is empty. *)
Definition truthy (s : string) : bool := negb (String.eqb s "").

(** [hay.includes(needle)]. *)
Fixpoint includes (needle hay : string) : bool :=
  String.prefix needle hay ||
  match hay with
  | EmptyString => false
  | String _ hay' => includes needle hay'
  end.

(** The double quote of the command lines. *)
Definition dquote : string := String "034"%char EmptyString.

(** The line feed. *)
Definition newline : string := String "010"%char EmptyString.

(** ** [grep]

    [grep PATTERN] selects the lines in which the pattern occurs.  A dot
    in the pattern stands for any character; every other character
    stands for itself.  Branch names are taken to hold no character that
    the shell or [grep] reads otherwise ([git] itself forbids the star,
    the bracket, the backslash and the space in them). *)

Definition char_matches (p c : ascii) : bool :=
  Ascii.eqb p "."%char || Ascii.eqb p c.

Fixpoint matches_here (pattern line : string) : bool :=
  match pattern, line with
  | EmptyString, _ => true
  | String _ _, EmptyString => false
  | String p pattern', String c line' =>
      char_matches p c && matches_here pattern' line'
  end.

Fixpoint grep_line (pattern line : string) : bool :=
  matches_here pattern line ||
  match line with
  | EmptyString => false
  | String _ line' => grep_line pattern line'
  end.

(** ** The commands the worker runs *)

Inductive Cmd :=
| gh_pr_list (repo search : string) (limit : N)
| git_clone (branch repo dir : string)
| git_fetch_all
| git_checkout (branch : string)
| git_reset_hard (branch : string)
| git_pull (branch : string)
| git_branch_contains (sha pattern : string)
| git_cherry_pick (sha : string)
| git_push (branch : string).

(** The command line of each command, as the template strings of
    [processJob] build it. *)
Definition render (c : Cmd) : string :=
  match c with
  | gh_pr_list repo search limit =>
      "gh pr list --repo " +:+ dquote +:+ repo +:+ dquote +:+
      " --search " +:+ dquote +:+ search +:+ dquote +:+
      " --state merged --sort merged-at --order asc" +:+
      " --json mergedAt,number,mergeCommit --limit " +:+ pretty limit
  | git_clone branch repo dir =>
      "git clone --branch " +:+ branch +:+
      " --single-branch https://github.com/" +:+ repo +:+ ".git " +:+
      dquote +:+ dir +:+ dquote
  | git_fetch_all => "git fetch --all"
  | git_checkout branch => "git checkout " +:+ branch
  | git_reset_hard branch => "git reset --hard origin/" +:+ branch
  | git_pull branch => "git pull origin " +:+ branch
  | git_branch_contains sha pattern =>
      "git branch --contains " +:+ sha +:+ " | grep " +:+ pattern
  | git_cherry_pick sha => "git cherry-pick " +:+ sha
  | git_push branch => "git push origin " +:+ branch
  end.

(** ** Observable effects *)

Inductive Event :=
| Log (line : string)
| Exec (c : Cmd)
| Chdir (dir : string)
| Post (url : string) (body : Payload)
| RandomUUID
| AddJobToQueue (id : string)
| GetNextJob
| CompleteJob (id : string)
| FailJob (id : string) (detail : string).

(** The commands among the events of a trace, in order. *)
Definition commands (t : list Event) : list Cmd :=
  omap (λ e, match e with Exec c => Some c | _ => None end) t.

(** ** The world: clones, remotes, job store *)

(** A clone.  A branch is the list of the commits reachable from its tip,
    the tip first.  [CHERRY_PICK_HEAD] is set while a cherry-pick that
    stopped on a conflict is in progress. *)
Record Repo := mkRepo {
  origin : string;
  branches : gmap string (list string);
  HEAD : string;
  CHERRY_PICK_HEAD : option string
}.

Record World := mkWorld {
  github : gmap string (gmap string (list string));
  disk : gmap string Repo;
  cwd : string;
  queue : list Job;
  drawn : nat;
  trace : list Event
}.

(** Ascending by merge timestamp; ISO timestamps compare as strings. *)
Definition merged_before (a b : PullRequest) : Prop :=
  String.le (mergedAt a) (mergedAt b).

(** What the model cannot know: the answers of the outside world.
    - [merged_prs repo search]: the merged pull requests of [repo] that
      match [search], in the order in which the host serves them when
      asked for [--sort merged-at --order asc]; [None] when the query fails.
    - [pick history sha]: the commit that replaying [sha] on top of
      [history] records, or [None] when [git cherry-pick] stops, on a
      conflict or because nothing is left to apply.
    - [uuid n]: the n-th identifier drawn by [randomUUID].
    - [is_url s]: whether [s] passes [z.string().url()].
    - [stderr_of c]: what the command [c] writes to the standard error
      when it fails.
    - [merged_prs_ascending]: the host honours the order it is asked for,
      ascending by merge time. *)
Record Env := mkEnv {
  merged_prs : string → string → option (list PullRequest);
  pick : list string → string → option string;
  uuid : nat → string;
  is_url : string → bool;
  stderr_of : Cmd → string;
  merged_prs_ascending :
    ∀ repo search prs, merged_prs repo search = Some prs → Sorted merged_before prs
}.

Definition set_github (g : gmap string (gmap string (list string))) (w : World) : World :=
  mkWorld g (disk w) (cwd w) (queue w) (drawn w) (trace w).

Definition set_disk (d : gmap string Repo) (w : World) : World :=
  mkWorld (github w) d (cwd w) (queue w) (drawn w) (trace w).

Definition set_cwd (dir : string) (w : World) : World :=
  mkWorld (github w) (disk w) dir (queue w) (drawn w) (trace w).

Definition set_queue (q : list Job) (w : World) : World :=
  mkWorld (github w) (disk w) (cwd w) q (drawn w) (trace w).

Definition set_drawn (n : nat) (w : World) : World :=
  mkWorld (github w) (disk w) (cwd w) (queue w) n (trace w).

Definition emit (e : Event) (w : World) : World :=
  mkWorld (github w) (disk w) (cwd w) (queue w) (drawn w) (trace w ++ [e]).

Definition set_branch (b : string) (h : list string) (r : Repo) : Repo :=
  mkRepo (origin r) (<[b := h]> (branches r)) (HEAD r) (CHERRY_PICK_HEAD r).

Definition set_HEAD (b : string) (r : Repo) : Repo :=
  mkRepo (origin r) (branches r) b (CHERRY_PICK_HEAD r).

Definition set_CHERRY_PICK_HEAD (c : option string) (r : Repo) : Repo :=
  mkRepo (origin r) (branches r) (HEAD r) c.

(** ** The programs, over the model *)

(** A line of [git branch]: the checked-out branch is starred. *)
Definition branch_line (r : Repo) (b : string) : string :=
  (if String.eqb b (HEAD r) then "* " else "  ") +:+ b.

(** [git branch --contains sha | grep pattern]: the exit status of the
    pipeline is that of [grep], zero when some listed line matches. *)
Definition contains_grep (r : Repo) (sha pattern : string) : bool :=
  existsb
    (λ bh : string * list string,
       bool_decide (sha ∈ bh.2) && grep_line pattern (branch_line r bh.1))
    (map_to_list (branches r)).

(** The branch [b] of the remote of [r], among the remotes [g]. *)
Definition remote_branch (g : gmap string (gmap string (list string))) (r : Repo) (b : string)
  : option (list string) :=
  g !! origin r ≫= λ bs, bs !! b.

(** A [git] command in a clone, with the remotes [g]: exit status zero
    or not, and the clone afterwards.
    - [fetch --all] needs the remote and changes no branch (the remote
      branches are read where they are).
    - [checkout b] switches to the local branch [b]; a clone made with
      [--single-branch] has no other branch to check out.  A checkout
      while a cherry-pick that stopped on a conflict is in progress lies
      outside the model: [git] refuses it, the model lets it pass.
    - [reset --hard origin/b] moves the checked-out branch to the remote
      branch and drops a cherry-pick in progress.
    - [pull origin b] fast-forwards the checked-out branch, or leaves it
      when it is ahead; it fails when the two have diverged.
    - [cherry-pick sha] records a commit on top of the checked-out branch,
      or stops, on a conflict or with nothing left to apply, with the
      cherry-pick left in progress; it refuses to start while another one
      is in progress.  The commit is taken to be one that the clone
      holds: [git] refuses any other before it replays anything, as in a
      clone made with [--single-branch] for a commit of another branch. *)
Definition git_in_repo (E : Env) (g : gmap string (gmap string (list string))) (c : Cmd)
    (r : Repo) : bool * Repo :=
  match c with
  | git_fetch_all => (bool_decide (is_Some (g !! origin r)), r)
  | git_checkout b =>
      if bool_decide (is_Some (branches r !! b)) then (true, set_HEAD b r) else (false, r)
  | git_reset_hard b =>
      match remote_branch g r b with
      | Some h => (true, set_CHERRY_PICK_HEAD None (set_branch (HEAD r) h r))
      | None => (false, r)
      end
  | git_pull b =>
      match remote_branch g r b, branches r !! HEAD r with
      | Some h, Some l =>
          if bool_decide (l `suffix_of` h) then (true, set_branch (HEAD r) h r)
          else if bool_decide (h `suffix_of` l) then (true, r)
          else (false, r)
      | _, _ => (false, r)
      end
  | git_branch_contains sha pattern => (contains_grep r sha pattern, r)
  | git_cherry_pick sha =>
      match CHERRY_PICK_HEAD r, branches r !! HEAD r with
      | None, Some l =>
          match pick E l sha with
          | Some c' => (true, set_branch (HEAD r) (c' :: l) r)
          | None => (false, set_CHERRY_PICK_HEAD (Some sha) r)
          end
      | _, _ => (false, r)
      end
  | _ => (false, r)
  end.

(** A command run by the shell: its output when the exit status is zero
    ([None] otherwise), and the world afterwards.  Only the output of
    [gh] is read by the worker, so it is the only one kept, already
    parsed.
    - [gh pr list ... --limit n] prints at most [n] of the matching pull
      requests, in the order in which the host serves them.
    - [clone] needs a free directory and the branch on the remote.
    - [push origin b] needs the local branch to extend the remote one.
    - every other command needs a clone in the working directory. *)
Definition sh (E : Env) (c : Cmd) (w : World) : option (list PullRequest) * World :=
  match c with
  | gh_pr_list repo search limit =>
      (take (N.to_nat limit) <$> merged_prs E repo search, w)
  | git_clone branch repo dir =>
      match disk w !! dir, github w !! repo ≫= λ bs, bs !! branch with
      | None, Some h =>
          (Some [], set_disk (<[dir := mkRepo repo {[branch := h]} branch None]> (disk w)) w)
      | _, _ => (None, w)
      end
  | git_push b =>
      match disk w !! cwd w with
      | Some r =>
          match branches r !! b, github w !! origin r with
          | Some l, Some bs =>
              if bool_decide (default [] (bs !! b) `suffix_of` l)
              then (Some [], set_github (<[origin r := <[b := l]> bs]> (github w)) w)
              else (None, w)
          | _, _ => (None, w)
          end
      | None => (None, w)
      end
  | _ =>
      match disk w !! cwd w with
      | Some r =>
          let '(ok, r') := git_in_repo E (github w) c r in
          (if ok then Some [] else None, set_disk (<[cwd w := r']> (disk w)) w)
      | None => (None, w)
      end
  end.

(** *** Exceptions and state *)

Inductive Outcome (A : Type) :=
| Returned (a : A)
| Thrown (message : string).
Arguments Returned {A} a.
Arguments Thrown {A} message.

Definition M (A : Type) : Type := World → Outcome A * World.

#[global] Instance M_ret : MRet M := λ A a w, (Returned a, w).

#[global] Instance M_bind : MBind M := λ A B k m w,
  match m w with
  | (Returned a, w') => k a w'
  | (Thrown e, w') => (Thrown e, w')
  end.

Definition throw {A} (message : string) : M A := λ w, (Thrown message, w).

(** [try { body } catch (e) { handler }]: what [body] did before it
    threw stays done. *)
Definition try_catch {A} (body : M A) (handler : string → M A) : M A :=
  λ w, match body w with
       | (Returned a, w') => (Returned a, w')
       | (Thrown e, w') => handler e w'
       end.

(** [console.log(line)] and [console.error(line)]. *)
Definition log (line : string) : M unit := λ w, (Returned (), emit (Log line) w).

(** The [stdio] option of [execSync]: by default the standard error of
    the command is piped to the caller; with ['inherit'] it goes straight
    to the terminal and the caller does not see it. *)
Inductive StdioOption := stdio_pipe | stdio_inherit.

(** The message of the error that [execSync] throws when the exit status
    is not zero: the command line, followed on a new line by what the
    command wrote to the standard error when that was piped and is not
    empty. *)
Definition checkExecSyncError (c : Cmd) (stderr : option string) : string :=
  match stderr with
  | Some s =>
      if truthy s then "Command failed: " +:+ render c +:+ newline +:+ s
      else "Command failed: " +:+ render c
  | None => "Command failed: " +:+ render c
  end.

(** [execSync(command, { stdio })]: throws when the exit status is not
    zero. *)
Definition execSync_with (stdio : StdioOption) (E : Env) (c : Cmd) : M (list PullRequest) :=
  λ w, match sh E c (emit (Exec c) w) with
       | (Some out, w') => (Returned out, w')
       | (None, w') =>
           (Thrown (checkExecSyncError c
                      match stdio with
                      | stdio_pipe => Some (stderr_of E c)
                      | stdio_inherit => None
                      end), w')
       end.

(** [execSync(command)]. *)
Definition execSync (E : Env) (c : Cmd) : M (list PullRequest) :=
  execSync_with stdio_pipe E c.

(** [function run(command)], which calls
    [execSync(command, { encoding: 'utf8', stdio: 'inherit' })]. *)
Definition run (E : Env) (c : Cmd) : M unit :=
  log ("[Worker] > " +:+ render c);;
  execSync_with stdio_inherit E c;;
  mret ().

(** [require('fs').existsSync(dir)]: the directories of the model are the
    clones. *)
Definition existsSync (dir : string) : M bool :=
  λ w, (Returned (bool_decide (is_Some (disk w !! dir))), w).

(** [process.chdir(dir)]. *)
Definition chdir (dir : string) : M unit :=
  λ w, if bool_decide (is_Some (disk w !! dir))
       then (Returned (), set_cwd dir (emit (Chdir dir) w))
       else (Thrown ("ENOENT: no such file or directory, chdir " +:+ dir), emit (Chdir dir) w).

(** [randomUUID()]. *)
Definition randomUUID (E : Env) : M string :=
  λ w, (Returned (uuid E (drawn w)), set_drawn (S (drawn w)) (emit RandomUUID w)).

(** *** The job store ([./queue.js])

    [index.ts] imports [addJobToQueue], [getNextJob], [completeJob] and
    [failJob] from [./queue.js].  The store is a list of job records in
    the order in which they were enqueued, so that the oldest job comes
    first. *)

(** Modelled from the spec: the transition of a job record of
    [./queue.js] to another state, with its error message if any. *)
Definition set_job_state (s : JobState) (e : option string) (j : Job) : Job :=
  mkJob (job_id j) (job_params j) s e.

(** Modelled from the spec: [addJobToQueue] of [./queue.js] is missing;
    "persists a new Job in [queued]". *)
Definition addJobToQueue (id : string) (p : CherryPickParamsType) : M unit :=
  λ w, (Returned (),
        set_queue (queue w ++ [mkJob id p queued None]) (emit (AddJobToQueue id) w)).

(** Modelled from the spec: the claim of [./queue.js]; the oldest queued
    job of a store, moved to [running], and the store afterwards. *)
Fixpoint claim (q : list Job) : option (Job * list Job) :=
  match q with
  | [] => None
  | j :: q' =>
      if decide (job_state j = queued)
      then Some (set_job_state running None j, set_job_state running None j :: q')
      else (λ c : Job * list Job, (c.1, j :: c.2)) <$> claim q'
  end.

(** Modelled from the spec: [getNextJob] of [./queue.js] is missing;
    "atomically selects the oldest [queued] job, transitions it to
    [running], and returns it ... if no queued job exists, returns none
    without blocking".  One call is one step of the store. *)
Definition getNextJob : M (option Job) :=
  λ w, match claim (queue w) with
       | Some (j, q') => (Returned (Some j), set_queue q' (emit GetNextJob w))
       | None => (Returned None, emit GetNextJob w)
       end.

(** Modelled from the spec: the terminal transition of [./queue.js]; the
    store after the job [id] left [running] for a terminal state, [None]
    when there is no such job or it is not running. *)
Fixpoint finish (id : string) (s : JobState) (e : option string) (q : list Job)
  : option (list Job) :=
  match q with
  | [] => None
  | j :: q' =>
      if String.eqb (job_id j) id
      then if decide (job_state j = running) then Some (set_job_state s e j :: q') else None
      else (λ q'', j :: q'') <$> finish id s e q'
  end.

(** Modelled from the spec: [completeJob] and [failJob] of [./queue.js]
    are missing; "transition a [running] job to a terminal state; fails
    with [InvalidTransitionError] if the job is not currently [running]". *)
Definition completeJob (id : string) : M unit :=
  λ w, match finish id completed None (queue w) with
       | Some q' => (Returned (), set_queue q' (emit (CompleteJob id) w))
       | None => (Thrown "InvalidTransitionError", emit (CompleteJob id) w)
       end.

(** Modelled from the spec: [failJob] of [./queue.js] is missing; as
    [completeJob], to [failed] and with the error text. *)
Definition failJob (id : string) (detail : string) : M unit :=
  λ w, match finish id failed (Some detail) (queue w) with
       | Some q' => (Returned (), set_queue q' (emit (FailJob id detail) w))
       | None => (Thrown "InvalidTransitionError", emit (FailJob id detail) w)
       end.

(** The record of the job [id] in a store. *)
Definition find_job (id : string) (q : list Job) : option Job :=
  List.find (λ j, String.eqb (job_id j) id) q.

(** *** The server *)

(** [async function enqueueCherryPickJob(params)]. *)
Definition enqueueCherryPickJob (E : Env) (params : CherryPickParamsType) : M JobStatusType :=
  log ("[INFO] Enqueuing job for repo: " +:+ repository params);;
  if negb (truthy (repository params)) || negb (truthy (targetBranch params))
     || negb (truthy (prFilterQuery params))
  then throw "Missing required parameters: repository, targetBranch, prFilterQuery"
  else
    jobId ← randomUUID E;
    addJobToQueue jobId params;;
    log ("[INFO] Job enqueued with ID: " +:+ jobId);;
    mret (mkJobStatus jobId queued "Cherry-pick job has been queued successfully.").

(** [CherryPickParams.parse(args)]: the three required fields must be
    strings, [callbackUrl] a URL when present. *)
Definition CherryPickParams_parse (E : Env) (args : ToolArguments) : M CherryPickParamsType :=
  match arg_repository args, arg_targetBranch args, arg_prFilterQuery args with
  | Some r, Some b, Some q =>
      match arg_callbackUrl args with
      | Some u => if is_url E u then mret (mkParams r b q (Some u)) else throw "ZodError"
      | None => mret (mkParams r b q None)
      end
  | _, _, _ => throw "ZodError"
  end.

(** The description that [get_server_info] answers with, abridged. *)
Definition server_info : string :=
  "{server_name: github-helper-server, version: 1.0.0, transport: stdio}".

(** The [CallToolRequestSchema] handler; it answers with a text. *)
Definition callTool (E : Env) (name : string) (args : ToolArguments) : M string :=
  if String.eqb name "cherry-pick" then
    p ← CherryPickParams_parse E args;
    result ← enqueueCherryPickJob E p;
    log ("Enqueued cherry-pick job: " +:+ jobId result);;
    mret ("Cherry-pick job enqueued with ID: " +:+ jobId result)
  else if String.eqb name "get_server_info" then mret server_info
  else throw ("Unknown tool: " +:+ name).

(** *** The worker *)

Definition WORKSPACE_DIR : string := "/opt/mcp/workspaces".

(** "How long to wait (in ms) before checking for a new job"; no code of
    the worker refers to it. *)
Definition POLL_INTERVAL : Z := 5000.

(** [path.join(WORKSPACE_DIR, repository)], for a repository name that
    needs no normalisation. *)
Definition WORKSPACE (repo : string) : string := WORKSPACE_DIR +:+ "/" +:+ repo.

(** The [--limit] of the query. *)
Definition PR_LIMIT : N := 9999.

(** [all_prs.map(pr => pr.mergeCommit.oid)]. *)
Definition commitsToPick (all_prs : list PullRequest) : list string :=
  mergeCommit_oid <$> all_prs.

(** "2. Prepare Local Repo". *)
Definition prepare_local_repo (E : Env) (repo branch : string) : M unit :=
  log ("[Worker] Setting up workspace in " +:+ WORKSPACE repo +:+ "...");;
  present ← existsSync (WORKSPACE repo);
  (if present : bool then (mret () : M unit) else run E (git_clone branch repo (WORKSPACE repo)));;
  chdir (WORKSPACE repo);;
  run E git_fetch_all;;
  run E (git_checkout branch);;
  run E (git_reset_hard branch);;
  run E (git_pull branch).

(** "3. Execute Cherry-Picks": the [for (const sha of commitsToPick)] loop. *)
Fixpoint execute_cherry_picks (E : Env) (branch : string) (commits : list string) : M unit :=
  match commits with
  | [] => mret ()
  | sha :: rest =>
      skip ← try_catch
               (execSync E (git_branch_contains sha branch);;
                log ("[Worker] Commit " +:+ sha +:+ " is already on " +:+ branch +:+ ". Skipping.");;
                mret true)
               (λ _, mret false);
      if skip : bool then execute_cherry_picks E branch rest
      else
        log ("[Worker] Picking commit: " +:+ sha);;
        run E (git_cherry_pick sha);;
        execute_cherry_picks E branch rest
  end.

(** [async function processJob(jobId, params)]. *)
Definition processJob (E : Env) (jobId : string) (params : JobParams) : M unit :=
  let repo := repository (jp_params params) in
  let branch := targetBranch (jp_params params) in
  log ("[Worker] Processing job " +:+ jobId +:+ " for " +:+ repo);;
  log "[Worker] Fetching PRs...";;
  all_prs ← execSync E (gh_pr_list repo (prFilterQuery (jp_params params)) PR_LIMIT);
  if bool_decide (length all_prs = 0) then
    log "[Worker] No matching PRs found. Job complete."
  else
    prepare_local_repo E repo branch;;
    log ("[Worker] Found " +:+ pretty (length (commitsToPick all_prs)) +:+ " commits to pick...");;
    execute_cherry_picks E branch (commitsToPick all_prs);;
    log "[Worker] All commits cherry-picked. Pushing changes...";;
    run E (git_push branch);;
    log ("[Worker] Job " +:+ jobId +:+ " completed successfully.").

(** [error || null]. *)
Definition or_null (error : option string) : option string :=
  match error with
  | Some e => if truthy e then Some e else None
  | None => None
  end.

(** [axios.post(url, body)]: the request is handed over; its promise
    settles later. *)
Definition axios_post (url : string) (body : Payload) : M unit :=
  λ w, (Returned (), emit (Post url body) w).

(** [function sendWebhook(params, status, error?)]: it returns as soon as
    the request is handed to [axios.post]. *)
Definition sendWebhook (params : JobParams) (s : JobState) (error : option string) : M unit :=
  match callbackUrl (jp_params params) with
  | Some url =>
      if truthy url then
        log ("[Worker] Sending webhook to: " +:+ url);;
        axios_post url (mkPayload (jp_jobId params) s
                          (repository (jp_params params)) (or_null error))
      else mret ()
  | None => mret ()
  end.

(** The [.then] and [.catch] callbacks of the request, run when it
    settles: [None] for a response, [Some detail] for a failure. *)
Definition webhook_settled (failure : option string) : M unit :=
  match failure with
  | None => log "[Worker] Webhook sent successfully."
  | Some detail => log ("[Worker] Failed to send webhook: " +:+ detail)
  end.

(** The body of [while (true)] in [main].  The three places the source
    leaves as comments, "(abort logic)", "(wait logic)" and "(critical
    error logic)", hold no statement. *)
Definition main_iteration (E : Env) : M unit :=
  try_catch
    (job ← getNextJob;
     match job with
     | Some job =>
         let jobParams := mkJobParams (job_params job) (job_id job) in
         try_catch
           (processJob E (job_id job) jobParams;;
            completeJob (job_id job);;
            sendWebhook jobParams completed None)
           (λ e,
              log ("[Worker] Job " +:+ job_id job +:+ " failed: " +:+ e);;
              (if includes "cherry-pick" e then (mret () : M unit) else mret ());;
              failJob (job_id job) e;;
              sendWebhook jobParams failed (Some e))
     | None => mret ()
     end)
    (λ _, mret ()).

(** [n] turns of the loop. *)
Fixpoint main_loop (E : Env) (n : nat) : M unit :=
  match n with
  | O => mret ()
  | S n' => main_iteration E;; main_loop E n'
  end.

(** ** Vocabulary of the properties *)



(** The commits the loop examined, in order: the [sha] of every
    [git branch --contains sha] among the events. *)
Definition examined (t : list Event) : list string :=
  omap (λ e, match e with Exec (git_branch_contains sha _) => Some sha | _ => None end) t.

(** The commits handed to [git cherry-pick], in order. *)
Definition picked (t : list Event) : list string :=
  omap (λ e, match e with Exec (git_cherry_pick sha) => Some sha | _ => None end) t.

(** The jobs obtained by [n] successive claims on a store, whoever the
    callers are. *)
Fixpoint claims (n : nat) (q : list Job) : list Job :=
  match n with
  | O => []
  | S n' =>
      match claim q with
      | Some (j, q') => j :: claims n' q'
      | None => []
      end
  end.

(** A branch name in which the target branch name occurs. *)
Definition occurs_in (target b : string) : Prop :=
  ∃ pre post, b = pre +:+ target +:+ post.

(** The identifiers of the queued jobs of a store. *)
Definition queued_ids (q : list Job) : list string :=
  job_id <$> filter (λ j, job_state j = queued) q.

(** The world after further events. *)
Definition emits (t : list Event) (w : World) : World :=
  mkWorld (github w) (disk w) (cwd w) (queue w) (drawn w) (trace w ++ t).

(** A required argument that is absent or empty. *)
Definition missing (a : option string) : Prop := a = None ∨ a = Some "".

(** A program that never touches the job store. *)
Definition keeps_queue {A} (m : M A) : Prop := ∀ w, queue (m w).2 = queue w.

(** The commands that run inside the clone of the working directory. *)
Definition in_repo (c : Cmd) : Prop :=
  match c with
  | gh_pr_list _ _ _ | git_clone _ _ _ | git_push _ => False
  | _ => True
  end.

(** A program that runs no [git branch --contains]. *)
Definition examines_nothing {A} (m : M A) : Prop :=
  ∀ w, ∃ t, trace (m w).2 = trace w ++ t ∧ examined t = [].

(** ** Scenarios *)

(** The submission of the specification's scenario. *)
Definition demo_params : CherryPickParamsType :=
  mkParams "org/app" "release/2.1" "label:backport" None.

(** Three changesets merged in the order B, A, C under the numbers 2, 1, 3. *)
Definition demo_prs : list PullRequest :=
  [mkPR "2024-01-01T10:00:00Z" 2 "cB";
   mkPR "2024-01-02T10:00:00Z" 1 "cA";
   mkPR "2024-01-03T10:00:00Z" 3 "cC"].





#[global] Instance merged_before_dec : RelDecision merged_before.
Proof. intros a b. unfold merged_before. apply _. Defined.

(** An environment whose host serves [prs] for every query when they are
    in ascending merge order and fails every query otherwise; commands
    that fail write nothing to the standard error. *)
Definition host_env (prs : list PullRequest) (replay : list string → string → option string)
  : Env :=
  match decide (Sorted merged_before prs) with
  | left ascending =>
      mkEnv (λ _ _, Some prs) replay (λ n, "job-" +:+ pretty n) (λ _, true) (λ _, "")
            (λ _ _ l served, ltac:(by injection served as <-))
  | right _ =>
      mkEnv (λ _ _, None) replay (λ n, "job-" +:+ pretty n) (λ _, true) (λ _, "")
            (λ _ _ l served, ltac:(done))
  end.

(** The identifier under which the replay of a commit is recorded in the
    scenarios: [git cherry-pick] records a new commit, never the one it
    replays. *)
Definition replay_of (c : string) : string := c +:+ "'".

(** An environment that serves [prs] for every query and replays as [git
    cherry-pick] does: the commits of [conflicting] do not apply, a
    commit whose replay is already in the history leaves nothing to
    apply, and every other commit is recorded under a new identifier. *)
Definition scenario_env (prs : list PullRequest) (conflicting : list string) : Env :=
  host_env prs (λ h c, if bool_decide (c ∈ conflicting) then None
                       else if bool_decide (replay_of c ∈ h) then None
                       else Some (replay_of c)).

(** An environment whose host fails every query, [gh] writing [detail]
    to the standard error. *)
Definition failing_env (detail : string) : Env :=
  mkEnv (λ _ _, None) (λ _ c, Some (replay_of c)) (λ n, "job-" +:+ pretty n) (λ _, true)
        (λ _, detail) (λ _ _ l served, ltac:(done)).

(** A clone of the whole repository, made beforehand: its branch [main]
    holds the merge commits, its target branch is level with the remote. *)
Definition full_clone (main : list string) : Repo :=
  mkRepo "org/app" (<["main" := main]> {[ "release/2.1" := ["base"] ]}) "main" None.

(** The world in which the workspace of the repository holds that clone. *)
Definition cloned_world (main : list string) : World :=
  mkWorld {[ "org/app" := <["main" := main]> {[ "release/2.1" := ["base"] ]} ]}
          {[ WORKSPACE "org/app" := full_clone main ]} "/" [] 0 [].

(** The scenario on a clone that holds the three merge commits. *)
Definition demo_clone : World := cloned_world ["cC"; "cA"; "cB"; "base"].

(** No clone yet, the remote has the target branch, the store is empty. *)
Definition demo_world : World :=
  mkWorld {[ "org/app" := {[ "release/2.1" := ["base"] ]} ]} ∅ "/" [] 0 [].

(** The world after the submission has been enqueued. *)
Definition submitted (E : Env) : World := (enqueueCherryPickJob E demo_params demo_world).2.

(** A clone in which only a branch named after the target, not the target
    itself, holds the commit ["cX"]. *)
Definition hotfix_repo : Repo :=
  mkRepo "org/app"
    (<["release/2.1-hotfix" := ["cX"; "base"]]> {[ "release/2.1" := ["base"] ]})
    "release/2.1" None.

Definition hotfix_world : World :=
  mkWorld {[ "org/app" := {[ "release/2.1" := ["base"] ]} ]}
          {[ WORKSPACE "org/app" := hotfix_repo ]} (WORKSPACE "org/app") [] 0 [].

(** ** Further vocabulary *)

(** A program all of whose events satisfy [P]. *)
Definition emits_only {A} (P : Event → Prop) (m : M A) : Prop :=
  ∀ w, ∃ t, trace (m w).2 = trace w ++ t ∧ Forall P t.

(** The events of [processJob]: log lines, commands, changes of directory. *)
Definition worker_event (e : Event) : Prop :=
  match e with
  | Log _ | Exec _ | Chdir _ => True
  | _ => False
  end.

(** Any event but a call of [getNextJob]. *)
Definition not_poll (e : Event) : Prop :=
  match e with
  | GetNextJob => False
  | _ => True
  end.

(** The requests handed to [axios.post], in order. *)
Definition posts (t : list Event) : list (string * Payload) :=
  omap (λ e, match e with Post url body => Some (url, body) | _ => None end) t.

(** The number of calls of [getNextJob]. *)
Definition polls (t : list Event) : nat :=
  length (omap (λ e, match e with GetNextJob => Some () | _ => None end) t).

(** A program that leaves the remotes alone. *)
Definition keeps_github {A} (m : M A) : Prop := ∀ w, github (m w).2 = github w.

(** A program that, run in the directory [d], stays there and changes no
    clone but the one in [d]. *)
Definition stays_in {A} (d : string) (m : M A) : Prop :=
  ∀ w, cwd w = d →
       cwd (m w).2 = d ∧ ∀ other, other ≠ d → disk (m w).2 !! other = disk w !! other.

(** The commands of "2. Prepare Local Repo" when the clone is there. *)
Definition prepare_commands (branch : string) : list Cmd :=
  [git_fetch_all; git_checkout branch; git_reset_hard branch; git_pull branch].

(** One tool of the answer of the [ListToolsRequestSchema] handler: its
    name, the properties of its input schema and the required ones. *)
Record Tool := mkTool {
  tool_name : string;
  tool_properties : list string;
  tool_required : list string
}.

(** The [ListToolsRequestSchema] handler. *)
Definition listTools : list Tool :=
  [ mkTool "cherry-pick" ["repository"; "targetBranch"; "prFilterQuery"; "callbackUrl"]
      ["repository"; "targetBranch"; "prFilterQuery"];
    mkTool "health" [] [];
    mkTool "get_server_info" [] [] ].

(** The arguments of a [cherry-pick] call with the three required fields
    present and not empty, and a [callbackUrl] that is a URL if there is
    one. *)
Definition well_formed (E : Env) (args : ToolArguments) : bool :=
  from_option truthy false (arg_repository args) &&
  from_option truthy false (arg_targetBranch args) &&
  from_option truthy false (arg_prFilterQuery args) &&
  from_option (is_url E) true (arg_callbackUrl args).

(** ** The server on plain standard input

    The earlier version of the server in [index.ts]: it reads one JSON-RPC
    request per line from the standard input, writes its responses to the
    standard output and its log to the standard error, and imports no job
    store. *)

Module Stdio.

(** [id: number | string], for a whole number. *)
Inductive RequestId :=
| IdNumber (n : Z)
| IdString (s : string).

(** [interface McpRequest], for a request whose [params], when there are
    any, are an object whose fields hold strings. *)
Record McpRequest := mkRequest {
  req_id : RequestId;
  method : string;
  params : option ToolArguments
}.

(** The two values that [result] is given. *)
Inductive McpResult :=
| JobStatusResult (jobStatus : JobStatusType)
| HealthResult (health service : string).

Record McpError := mkError {
  code : Z;
  error_message : string
}.

(** [interface McpResponse]. *)
Record McpResponse := mkResponse {
  resp_id : RequestId;
  result : option McpResult;
  error : option McpError
}.

(** The process: the identifiers drawn so far, the lines of the standard
    error, the responses on the standard output. *)
Record Console := mkConsole {
  drawn : nat;
  stderr : list string;
  stdout : list McpResponse
}.

(** A field in a template literal. *)
Definition template (a : option string) : string := default "undefined" a.

(** [!field]: the field is absent or empty. *)
Definition falsy (a : option string) : bool := negb (from_option truthy false a).

(** [${request.id}]. *)
Definition render_id (i : RequestId) : string :=
  match i with
  | IdNumber n => pretty n
  | IdString s => s
  end.

Definition console_error (line : string) (c : Console) : Console :=
  mkConsole (drawn c) (stderr c ++ [line]) (stdout c).

(** [function writeResponse(response)]; the response is kept as it is
    before [JSON.stringify]. *)
Definition writeResponse (response : McpResponse) (c : Console) : Console :=
  mkConsole (drawn c) (stderr c) (stdout c ++ [response]).

Definition randomUUID (E : Env) (c : Console) : string * Console :=
  (uuid E (drawn c), mkConsole (S (drawn c)) (stderr c) (stdout c)).

(** [async function enqueueCherryPickJob(params)] of this version: the
    place of the queue is a comment.  Reading a field of [params] throws
    when the request has none. *)
Definition enqueueCherryPickJob (E : Env) (params : option ToolArguments) (c : Console)
  : Outcome JobStatusType * Console :=
  match params with
  | None => (Thrown "Cannot read properties of undefined (reading 'repository')", c)
  | Some params =>
      let c := console_error ("[INFO] Enqueuing job for repo: "
                              +:+ template (arg_repository params)) c in
      if falsy (arg_repository params) || falsy (arg_targetBranch params)
         || falsy (arg_prFilterQuery params)
      then (Thrown "Missing required parameters: repository, targetBranch, prFilterQuery", c)
      else
        let '(jobId, c) := randomUUID E c in
        let c := console_error ("[INFO] Job enqueued with ID: " +:+ jobId) c in
        (Returned (mkJobStatus jobId queued "Cherry-pick job has been queued successfully."),
         c)
  end.

(** "2. Process the request": the [switch] inside [try]. *)
Definition process (E : Env) (request : McpRequest) (c : Console) : Outcome unit * Console :=
  if String.eqb (method request) "tasks/cherryPickFromPrFilter" then
    match enqueueCherryPickJob E (params request) c with
    | (Returned jobStatus, c) =>
        (Returned (),
         writeResponse (mkResponse (req_id request) (Some (JobStatusResult jobStatus)) None) c)
    | (Thrown e, c) => (Thrown e, c)
    end
  else if String.eqb (method request) "health/ping" then
    (Returned (),
     writeResponse (mkResponse (req_id request) (Some (HealthResult "ok" "git-helper")) None) c)
  else (Thrown ("Unknown method: " +:+ method request), c).

(** The listener of [rl.on('line', ...)], run for one line.  [JSON_parse]
    is [JSON.parse(line) as McpRequest], [None] when it throws.  The
    listener is asynchronous: the runs for different lines may
    interleave, so the order of the responses across lines is not part
    of the model. *)
Definition on_line (E : Env) (JSON_parse : string → option McpRequest) (line : string)
    (c : Console) : Console :=
  match JSON_parse line with
  | None => console_error ("[ERROR] Failed to parse input JSON: " +:+ line) c
  | Some request =>
      match process E request c with
      | (Returned _, c) => c
      | (Thrown message, c) =>
          writeResponse
            (mkResponse (req_id request) None
               (Some (mkError (-32000)
                        (if truthy message then message
                         else "An unknown server error occurred."))))
            (console_error ("[ERROR] Failed to process request " +:+ render_id (req_id request)
                            +:+ ": " +:+ message) c)
      end
  end.

End Stdio.

(** A request that is answered with a result: a ping, or a submission
    with the three required fields present and not empty. *)
Definition served (request : Stdio.McpRequest) : Prop :=
  Stdio.method request = "health/ping" ∨
  (Stdio.method request = "tasks/cherryPickFromPrFilter" ∧
   ∃ args, Stdio.params request = Some args ∧
           Stdio.falsy (arg_repository args) = false ∧
           Stdio.falsy (arg_targetBranch args) = false ∧
           Stdio.falsy (arg_prFilterQuery args) = false).

(** The lines logged among the events. *)
Definition logged (t : list Event) : list string :=
  omap (λ e, match e with Log line => Some line | _ => None end) t.

(** The validated parameters as the fields of a request. *)
Definition as_arguments (p : CherryPickParamsType) : ToolArguments :=
  mkArgs (Some (repository p)) (Some (targetBranch p)) (Some (prFilterQuery p)) (callbackUrl p).

(** * Properties *)

(** ** Strings and [grep] *)

Lemma string_app_cons (a : ascii) (s t : string) : String a s +:+ t = String a (s +:+ t).
Proof. reflexivity. Qed.

Lemma string_app_nil_l (s : string) : "" +:+ s = s.
Proof. reflexivity. Qed.

Lemma string_app_nil_r (s : string) : s +:+ "" = s.
Proof. induction s as [|a s IH]; [done|]. by rewrite string_app_cons, IH. Qed.

Lemma string_app_assoc (s t u : string) : (s +:+ t) +:+ u = s +:+ t +:+ u.
Proof. induction s as [|a s IH]; [done|]. by rewrite !string_app_cons, IH. Qed.

Lemma char_matches_refl (c : ascii) : char_matches c c = true.
Proof. unfold char_matches. rewrite Ascii.eqb_refl. apply orb_true_r. Qed.

Lemma matches_here_app (pattern rest : string) :
  matches_here pattern (pattern +:+ rest) = true.
Proof.
  induction pattern as [|p pattern IH]; [done|].
  rewrite string_app_cons. simpl. by rewrite char_matches_refl, IH.
Qed.

Lemma grep_line_occurrence (pattern pre post : string) :
  grep_line pattern (pre +:+ pattern +:+ post) = true.
Proof.
  induction pre as [|c pre IH].
  - rewrite string_app_nil_l. destruct (pattern +:+ post) eqn:Heq; simpl;
      by rewrite <- ?Heq, matches_here_app.
  - rewrite string_app_cons. simpl. rewrite IH. apply orb_true_r.
Qed.

(** ** [git branch --contains | grep] *)

Lemma contains_grep_true (r : Repo) (sha pattern : string) :
  contains_grep r sha pattern = true ↔
  ∃ b h, branches r !! b = Some h ∧ sha ∈ h ∧ grep_line pattern (branch_line r b) = true.
Proof.
  unfold contains_grep. rewrite existsb_exists. split.
  - intros [[b h] [Hin Hb]]. simpl in Hb.
    apply andb_true_iff in Hb as [Hsha Hgrep].
    exists b, h. split_and!; [|by apply bool_decide_eq_true in Hsha|done].
    by apply elem_of_map_to_list, list_elem_of_In.
  - intros (b & h & Hb & Hsha & Hgrep). exists (b, h). split.
    + by apply list_elem_of_In, elem_of_map_to_list.
    + simpl. rewrite Hgrep, andb_true_r. by apply bool_decide_eq_true.
Qed.

Lemma contains_grep_occurrence (r : Repo) (sha target b : string) (h : list string) :
  branches r !! b = Some h → sha ∈ h → occurs_in target b →
  contains_grep r sha target = true.
Proof.
  intros Hb Hsha (pre & post & ->). apply contains_grep_true.
  exists (pre +:+ target +:+ post), h. split_and!; [done..|].
  unfold branch_line. rewrite <- string_app_assoc. apply grep_line_occurrence.
Qed.

Lemma occurs_in_refl (b : string) : occurs_in b b.
Proof. exists "", "". by rewrite string_app_nil_l, string_app_nil_r. Qed.
(** ** The job store *)

Lemma claim_None (q : list Job) :
  claim q = None ↔ Forall (λ j, job_state j ≠ queued) q.
Proof.
  induction q as [|j q IH]; simpl.
  - split; [constructor|done].
  - destruct (decide (job_state j = queued)) as [Hq|Hq].
    + split; [done|]. inversion 1; subst. done.
    + rewrite fmap_None, IH. split.
      * by constructor.
      * by inversion 1.
Qed.

Lemma claim_Some (q q' : list Job) (j : Job) :
  claim q = Some (j, q') →
  ∃ pre j0 post,
    q = pre ++ j0 :: post ∧ Forall (λ j, job_state j ≠ queued) pre ∧
    job_state j0 = queued ∧ j = set_job_state running None j0 ∧
    q' = pre ++ j :: post.
Proof.
  revert q' j. induction q as [|j1 q IH]; intros q' j; simpl; [done|].
  destruct (decide (job_state j1 = queued)) as [Hq|Hq].
  - intros [= <- <-]. by exists [], j1, q.
  - destruct (claim q) as [[j2 q2]|] eqn:Hc; simpl; [|done].
    intros [= <- <-]. destruct (IH _ _ eq_refl) as (pre & j0 & post & -> & Hpre & Hj0 & -> & ->).
    exists (j1 :: pre), j0, post. split_and!; try done. by constructor.
Qed.

Lemma finish_found (id : string) (s : JobState) (e : option string)
    (pre post : list Job) (j : Job) :
  Forall (λ j', job_id j' ≠ id) pre → job_id j = id → job_state j = running →
  finish id s e (pre ++ j :: post) = Some (pre ++ set_job_state s e j :: post).
Proof.
  intros Hpre Hid Hrun. induction Hpre as [|j' pre Hne _ IH]; simpl.
  - rewrite Hid, String.eqb_refl. by destruct (decide _).
  - apply String.eqb_neq in Hne. by rewrite Hne, IH.
Qed.

Lemma find_job_found (id : string) (pre post : list Job) (j : Job) :
  Forall (λ j', job_id j' ≠ id) pre → job_id j = id →
  find_job id (pre ++ j :: post) = Some j.
Proof.
  intros Hpre Hid. unfold find_job. induction Hpre as [|j' pre Hne _ IH]; simpl.
  - by rewrite Hid, String.eqb_refl.
  - apply String.eqb_neq in Hne. by rewrite Hne.
Qed.

Lemma NoDup_ids_before (pre post : list Job) (j : Job) :
  NoDup (job_id <$> pre ++ j :: post) → Forall (λ j', job_id j' ≠ job_id j) pre.
Proof.
  rewrite fmap_app, fmap_cons. intros [Hpre [Hdisj _]]%NoDup_app.
  apply Forall_forall. intros j' Hj' Heq.
  apply (Hdisj (job_id j')); [by apply list_elem_of_fmap_2|].
  rewrite Heq. apply list_elem_of_here.
Qed.

(** A claimed job can be finished, and is then found in its terminal state. *)
Lemma finish_claimed (q q' : list Job) (j : Job) (s : JobState) (e : option string) :
  claim q = Some (j, q') → NoDup (job_id <$> q) →
  ∃ q'', finish (job_id j) s e q' = Some q'' ∧
         find_job (job_id j) q'' = Some (set_job_state s e j).
Proof.
  intros (pre & j0 & post & -> & _ & _ & -> & ->)%claim_Some Hnd.
  apply NoDup_ids_before in Hnd.
  eexists. split.
  - by apply finish_found.
  - by apply find_job_found.
Qed.

Lemma queued_ids_app (q1 q2 : list Job) :
  queued_ids (q1 ++ q2) = queued_ids q1 ++ queued_ids q2.
Proof. unfold queued_ids. by rewrite filter_app, fmap_app. Qed.

Lemma queued_ids_none (q : list Job) :
  Forall (λ j, job_state j ≠ queued) q → queued_ids q = [].
Proof.
  unfold queued_ids. induction 1 as [|j q Hj _ IH]; [done|].
  by rewrite filter_cons_False.
Qed.

Lemma queued_ids_sub (q : list Job) : queued_ids q ⊆ job_id <$> q.
Proof.
  unfold queued_ids. intros x (j & -> & Hj)%list_elem_of_fmap.
  apply list_elem_of_filter in Hj as [_ Hj]. by apply list_elem_of_fmap_2.
Qed.

(** What one claim does to the identifiers of a store. *)
Lemma claim_ids (q q' : list Job) (j : Job) :
  claim q = Some (j, q') → NoDup (job_id <$> q) →
  (job_id <$> q') = (job_id <$> q) ∧ job_id j ∈ queued_ids q ∧
  (job_id j ∉ queued_ids q') ∧ (queued_ids q' ⊆ queued_ids q).
Proof.
  intros (pre & j0 & post & -> & Hpre & Hj0 & -> & ->)%claim_Some Hnd.
  rewrite !queued_ids_app, (queued_ids_none pre Hpre). simpl.
  unfold queued_ids. rewrite !(filter_cons_True _ j0) by done.
  rewrite !filter_cons_False by (simpl; done). simpl.
  split_and!.
  - by rewrite !fmap_app.
  - apply list_elem_of_here.
  - intros Hin%queued_ids_sub.
    rewrite fmap_app, fmap_cons in Hnd.
    apply NoDup_app in Hnd as (_ & _ & Hnd). by apply NoDup_cons in Hnd as [].
  - intros x Hx. by apply list_elem_of_further.
Qed.

Lemma claims_ids_queued (n : nat) (q : list Job) :
  NoDup (job_id <$> q) → job_id <$> claims n q ⊆ queued_ids q.
Proof.
  revert q. induction n as [|n IH]; intros q Hnd; simpl; [set_solver|].
  destruct (claim q) as [[j q']|] eqn:Hc; [|set_solver].
  destruct (claim_ids _ _ _ Hc Hnd) as (Hids & Hj & _ & Hsub).
  rewrite fmap_cons. intros x [->|Hx]%elem_of_cons; [done|].
  apply Hsub, IH; [by rewrite Hids|done].
Qed.

(** No job is handed out twice, whatever the number of claims. *)
Lemma claims_NoDup (n : nat) (q : list Job) :
  NoDup (job_id <$> q) → NoDup (job_id <$> claims n q).
Proof.
  revert q. induction n as [|n IH]; intros q Hnd; simpl; [constructor|].
  destruct (claim q) as [[j q']|] eqn:Hc; [|constructor].
  destruct (claim_ids _ _ _ Hc Hnd) as (Hids & _ & Hj & _).
  rewrite fmap_cons. apply NoDup_cons. split.
  - intros Hin. apply Hj. revert Hin. apply claims_ids_queued. by rewrite Hids.
  - apply IH. by rewrite Hids.
Qed.

Lemma claims_running (n : nat) (q : list Job) :
  Forall (λ j, job_state j = running) (claims n q).
Proof.
  revert q. induction n as [|n IH]; intros q; simpl; [constructor|].
  destruct (claim q) as [[j q']|] eqn:Hc; [|constructor].
  constructor; [|apply IH].
  by apply claim_Some in Hc as (pre & j0 & post & _ & _ & _ & -> & _).
Qed.

(** ** Running programs *)

Lemma bind_eq {A B} (m : M A) (k : A → M B) (w : World) :
  (m ≫= k) w =
  match m w with
  | (Returned a, w') => k a w'
  | (Thrown e, w') => (Thrown e, w')
  end.
Proof. reflexivity. Qed.

Lemma bind_Returned {A B} (m : M A) (k : A → M B) (w w' : World) (a : A) :
  m w = (Returned a, w') → (m ≫= k) w = k a w'.
Proof. intros H. by rewrite bind_eq, H. Qed.

Lemma bind_Thrown {A B} (m : M A) (k : A → M B) (w w' : World) (e : string) :
  m w = (Thrown e, w') → (m ≫= k) w = (Thrown e, w').
Proof. intros H. by rewrite bind_eq, H. Qed.

Lemma bind_inv {A B} (m : M A) (k : A → M B) (w w2 : World) (b : B) :
  (m ≫= k) w = (Returned b, w2) →
  ∃ a w1, m w = (Returned a, w1) ∧ k a w1 = (Returned b, w2).
Proof.
  rewrite bind_eq. destruct (m w) as [[a|e] w1]; [|done]. intros H. by exists a, w1.
Qed.

(** A [log] at the head of a program that returned. *)
Ltac inv_log H :=
  let Hlog := fresh "Hlog" in
  apply bind_inv in H as ([] & ? & Hlog & H); injection Hlog as <-.

Lemma emits_nil (w : World) : emits [] w = w.
Proof. destruct w. unfold emits. simpl. by rewrite app_nil_r. Qed.

Lemma emit_emits (e : Event) (w : World) : emit e w = emits [e] w.
Proof. reflexivity. Qed.

Lemma emits_emits (t1 t2 : list Event) (w : World) :
  emits t2 (emits t1 w) = emits (t1 ++ t2) w.
Proof. unfold emits. simpl. by rewrite app_assoc. Qed.

Lemma set_disk_id (w : World) : set_disk (disk w) w = w.
Proof. by destruct w. Qed.

Lemma set_cwd_id (w : World) : set_cwd (cwd w) w = w.
Proof. by destruct w. Qed.

Lemma set_github_id (w : World) : set_github (github w) w = w.
Proof. by destruct w. Qed.

(** ** The polling loop *)

Lemma main_iteration_idle (E : Env) (w : World) :
  claim (queue w) = None → main_iteration E w = (Returned (), emit GetNextJob w).
Proof.
  intros Hc. unfold main_iteration, try_catch. rewrite bind_eq.
  unfold getNextJob. by rewrite Hc.
Qed.

(** C9 (the code does not do what the claim says).  While no job is
    queued, [n] turns of the loop of [main] are [n] calls of [getNextJob]
    and nothing else: no turn suspends, the next call follows at once. *)
Theorem C9_idle_loop_polls_back_to_back (E : Env) (n : nat) (w : World) :
  claim (queue w) = None →
  main_loop E n w = (Returned (), emits (replicate n GetNextJob) w).
Proof.
  revert w. induction n as [|n IH]; intros w Hc; simpl.
  - by rewrite emits_nil.
  - rewrite bind_eq, (main_iteration_idle E w Hc).
    rewrite IH by done. by rewrite emit_emits, emits_emits.
Qed.

(** The empty store of the scenario: three turns, three polls. *)
Lemma C9_witness :
  claim (queue demo_world) = None ∧
  main_loop (scenario_env demo_prs []) 3 demo_world =
    (Returned (), emits [GetNextJob; GetNextJob; GetNextJob] demo_world).
Proof.
  split; [reflexivity|].
  exact (C9_idle_loop_polls_back_to_back (scenario_env demo_prs []) 3 demo_world eq_refl).
Defined.

(** ** Submitting a job *)

Lemma truthy_false (s : string) : truthy s = false ↔ s = "".
Proof.
  unfold truthy. rewrite negb_false_iff. apply String.eqb_eq.
Qed.

Lemma truthy_true (s : string) : truthy s = true ↔ s ≠ "".
Proof.
  unfold truthy. rewrite negb_true_iff. apply String.eqb_neq.
Qed.

Lemma enqueue_rejected (E : Env) (params : CherryPickParamsType) (w : World) :
  repository params = "" ∨ targetBranch params = "" ∨ prFilterQuery params = "" →
  enqueueCherryPickJob E params w =
  (Thrown "Missing required parameters: repository, targetBranch, prFilterQuery",
   emit (Log ("[INFO] Enqueuing job for repo: " +:+ repository params)) w).
Proof.
  intros H. unfold enqueueCherryPickJob. rewrite bind_eq. simpl.
  replace (negb (truthy (repository params)) || negb (truthy (targetBranch params))
           || negb (truthy (prFilterQuery params))) with true; [done|].
  symmetry. rewrite !orb_true_iff, !negb_true_iff, !truthy_false. tauto.
Qed.

Lemma enqueue_accepted (E : Env) (params : CherryPickParamsType) (w : World) :
  repository params ≠ "" → targetBranch params ≠ "" → prFilterQuery params ≠ "" →
  ∃ w', enqueueCherryPickJob E params w =
        (Returned (mkJobStatus (uuid E (drawn w)) queued
                     "Cherry-pick job has been queued successfully."), w') ∧
        queue w' = queue w ++ [mkJob (uuid E (drawn w)) params queued None].
Proof.
  intros H1%truthy_true H2%truthy_true H3%truthy_true.
  unfold enqueueCherryPickJob. rewrite bind_eq. simpl. rewrite H1, H2, H3. simpl.
  eexists. split; reflexivity.
Qed.

(** C5.  [enqueueCherryPickJob] throws, and the store keeps its jobs,
    when the repository, the target branch or the filter query is empty;
    otherwise it appends one job in state [queued] under a fresh
    identifier and returns that identifier with status [queued].  A tool
    call in which one of the three is absent or empty is rejected in the
    same way. *)
Theorem C5_enqueue_validates_then_persists (E : Env) (w : World) :
  (∀ params,
     repository params = "" ∨ targetBranch params = "" ∨ prFilterQuery params = "" →
     ∃ e w', enqueueCherryPickJob E params w = (Thrown e, w') ∧ queue w' = queue w) ∧
  (∀ params,
     repository params ≠ "" → targetBranch params ≠ "" → prFilterQuery params ≠ "" →
     ∃ st w', enqueueCherryPickJob E params w = (Returned st, w') ∧
       status st = queued ∧
       queue w' = queue w ++ [mkJob (jobId st) params queued None]) ∧
  (∀ args,
     missing (arg_repository args) ∨ missing (arg_targetBranch args) ∨
     missing (arg_prFilterQuery args) →
     ∃ e w', callTool E "cherry-pick" args w = (Thrown e, w') ∧ queue w' = queue w).
Proof.
  split_and!.
  - intros params H. rewrite (enqueue_rejected E params w H). by eexists _, _.
  - intros params H1 H2 H3.
    destruct (enqueue_accepted E params w H1 H2 H3) as (w' & -> & Hq).
    by eexists _, _.
  - intros [r b q u] H. unfold missing in H. simpl in H.
    change (callTool E "cherry-pick" (mkArgs r b q u) w) with
      ((CherryPickParams_parse E (mkArgs r b q u) ≫= λ p,
        enqueueCherryPickJob E p ≫= λ result,
        log ("Enqueued cherry-pick job: " +:+ jobId result);;
        mret ("Cherry-pick job enqueued with ID: " +:+ jobId result)) w).
    rewrite bind_eq. unfold CherryPickParams_parse. simpl.
    destruct r as [r|]; [|by eexists _, _].
    destruct b as [b|]; [|by eexists _, _].
    destruct q as [q|]; [|by eexists _, _].
    assert (r = "" ∨ b = "" ∨ q = "") as Hempty.
    { destruct H as [[?|?]|[[?|?]|[?|?]]]; simplify_eq; auto. }
    destruct u as [u|]; [destruct (is_url E u)|].
    + unfold mret, M_ret.
      rewrite bind_eq, (enqueue_rejected E (mkParams r b q (Some u)) w Hempty).
      by eexists _, _.
    + by eexists _, _.
    + unfold mret, M_ret.
      rewrite bind_eq, (enqueue_rejected E (mkParams r b q None) w Hempty).
      by eexists _, _.
Qed.

(** The submission of the scenario is enqueued; the same submission
    with an empty target branch is rejected. *)
Lemma C5_witness :
  let E := scenario_env demo_prs [] in
  (repository demo_params ≠ "" ∧ targetBranch demo_params ≠ "" ∧
   prFilterQuery demo_params ≠ "") ∧
  (∃ st w', enqueueCherryPickJob E demo_params demo_world = (Returned st, w') ∧
     status st = queued ∧
     queue w' = queue demo_world ++ [mkJob (jobId st) demo_params queued None]) ∧
  (∃ e w', enqueueCherryPickJob E (mkParams "org/app" "" "label:backport" None) demo_world
           = (Thrown e, w') ∧ queue w' = queue demo_world).
Proof.
  intros E.
  assert (repository demo_params ≠ "") as H1 by (simpl; discriminate).
  assert (targetBranch demo_params ≠ "") as H2 by (simpl; discriminate).
  assert (prFilterQuery demo_params ≠ "") as H3 by (simpl; discriminate).
  split; [by split_and!|]. split.
  - exact (proj1 (proj2 (C5_enqueue_validates_then_persists E demo_world))
             demo_params H1 H2 H3).
  - exact (proj1 (C5_enqueue_validates_then_persists E demo_world)
             (mkParams "org/app" "" "label:backport" None) (or_intror (or_introl eq_refl))).
Defined.

(** ** Claiming a job *)

Lemma first_queued_unique (pre pre' post post' : list Job) (j j' : Job) :
  pre ++ j :: post = pre' ++ j' :: post' →
  Forall (λ a, job_state a ≠ queued) pre → Forall (λ a, job_state a ≠ queued) pre' →
  job_state j = queued → job_state j' = queued →
  pre = pre' ∧ j = j' ∧ post = post'.
Proof.
  intros Heq Hpre. revert pre' Heq.
  induction Hpre as [|a pre Ha _ IH]; intros [|a' pre'] Heq Hpre' Hj Hj'; simpl in Heq.
  - by injection Heq as -> ->.
  - injection Heq as -> _. by inversion Hpre'.
  - injection Heq as -> _. done.
  - injection Heq as -> Heq. inversion Hpre'; subst.
    by destruct (IH pre' Heq) as (-> & -> & ->).
Qed.

(** C4.  On the store modelled from the specification, [getNextJob]
    returns none and leaves the store as it is when no job is queued;
    otherwise it returns the oldest queued job, now [running].  In any
    sequence of claims on a store with distinct identifiers, whoever the
    callers are, the jobs handed out have pairwise distinct identifiers. *)
Theorem C4_claim_oldest_at_most_once (w : World) :
  (Forall (λ j, job_state j ≠ queued) (queue w) →
     getNextJob w = (Returned None, emit GetNextJob w)) ∧
  (∀ pre j post,
     queue w = pre ++ j :: post → Forall (λ j', job_state j' ≠ queued) pre →
     job_state j = queued →
     getNextJob w =
       (Returned (Some (set_job_state running None j)),
        set_queue (pre ++ set_job_state running None j :: post) (emit GetNextJob w))) ∧
  (NoDup (job_id <$> queue w) → ∀ n, NoDup (job_id <$> claims n (queue w))).
Proof.
  split_and!.
  - intros H%claim_None. unfold getNextJob. by rewrite H.
  - intros pre j post Hq Hpre Hj. unfold getNextJob.
    destruct (claim (queue w)) as [[j1 q1]|] eqn:Hc.
    + apply claim_Some in Hc as (pre' & j0 & post' & Hq' & Hpre' & Hj0 & -> & ->).
      rewrite Hq in Hq'.
      by destruct (first_queued_unique _ _ _ _ _ _ Hq' Hpre Hpre' Hj Hj0) as (-> & -> & ->).
    + apply claim_None in Hc. rewrite Hq in Hc.
      apply Forall_app in Hc as [_ Hc]. by inversion Hc.
  - intros Hnd n. by apply claims_NoDup.
Qed.

(** The store holding the submission of the scenario: the job is
    claimed once, and two claims in a row hand out no job twice. *)
Lemma C4_witness :
  let E := scenario_env demo_prs [] in
  let w := submitted E in
  NoDup (job_id <$> queue w) ∧
  job_state <$> queue w = [queued] ∧
  getNextJob w =
    (Returned (Some (mkJob "job-0" demo_params running None)),
     set_queue [mkJob "job-0" demo_params running None] (emit GetNextJob w)) ∧
  NoDup (job_id <$> claims 2 (queue w)).
Proof.
  intros E w.
  assert (NoDup (job_id <$> queue w)) as Hnd by (vm_compute; apply NoDup_singleton).
  split_and!; [exact Hnd|reflexivity| |].
  - exact (proj1 (proj2 (C4_claim_oldest_at_most_once w))
             [] (mkJob "job-0" demo_params queued None) [] eq_refl (Forall_nil_2 _) eq_refl).
  - exact (proj2 (proj2 (C4_claim_oldest_at_most_once w)) Hnd 2).
Defined.

(** ** What the worker leaves alone *)

Lemma keeps_queue_bind {A B} (m : M A) (k : A → M B) :
  keeps_queue m → (∀ a, keeps_queue (k a)) → keeps_queue (m ≫= k).
Proof.
  intros Hm Hk w. rewrite bind_eq. specialize (Hm w).
  destruct (m w) as [[a|e] w1]; simpl in *; [|done]. by rewrite Hk.
Qed.

Lemma keeps_queue_try_catch {A} (body : M A) (handler : string → M A) :
  keeps_queue body → (∀ e, keeps_queue (handler e)) → keeps_queue (try_catch body handler).
Proof.
  intros Hm Hk w. unfold try_catch. specialize (Hm w).
  destruct (body w) as [[a|e] w1]; simpl in *; [done|]. by rewrite Hk.
Qed.

Lemma keeps_queue_ret {A} (a : A) : keeps_queue (mret a).
Proof. by intros w. Qed.

Lemma keeps_queue_log (line : string) : keeps_queue (log line).
Proof. by intros w. Qed.

Lemma sh_queue (E : Env) (c : Cmd) (w : World) : queue (sh E c w).2 = queue w.
Proof.
  destruct c; simpl; repeat case_match; simplify_eq/=; done.
Qed.

Lemma keeps_queue_execSync_with (stdio : StdioOption) (E : Env) (c : Cmd) :
  keeps_queue (execSync_with stdio E c).
Proof.
  intros w. unfold execSync_with. pose proof (sh_queue E c (emit (Exec c) w)) as H.
  destruct (sh E c (emit (Exec c) w)) as [[out|] w1]; simpl in *; done.
Qed.

Lemma keeps_queue_execSync (E : Env) (c : Cmd) : keeps_queue (execSync E c).
Proof. apply keeps_queue_execSync_with. Qed.

Lemma keeps_queue_chdir (dir : string) : keeps_queue (chdir dir).
Proof. intros w. unfold chdir. by case_bool_decide. Qed.

Lemma keeps_queue_existsSync (dir : string) : keeps_queue (existsSync dir).
Proof. by intros w. Qed.

Create HintDb frame discriminated.
#[local] Hint Resolve keeps_queue_bind keeps_queue_try_catch keeps_queue_ret
  keeps_queue_log keeps_queue_execSync keeps_queue_execSync_with keeps_queue_chdir
  keeps_queue_existsSync : frame.

Lemma keeps_queue_run (E : Env) (c : Cmd) : keeps_queue (run E c).
Proof. unfold run. eauto 10 with frame. Qed.

#[local] Hint Resolve keeps_queue_run : frame.

Lemma keeps_queue_prepare (E : Env) (repo branch : string) :
  keeps_queue (prepare_local_repo E repo branch).
Proof.
  unfold prepare_local_repo.
  apply keeps_queue_bind; [eauto with frame|intros _].
  apply keeps_queue_bind; [eauto with frame|intros present].
  apply keeps_queue_bind; [destruct present; eauto with frame|intros _].
  eauto 20 with frame.
Qed.

Lemma keeps_queue_execute (E : Env) (branch : string) (commits : list string) :
  keeps_queue (execute_cherry_picks E branch commits).
Proof.
  induction commits as [|sha rest IH]; simpl; [eauto with frame|].
  apply keeps_queue_bind; [eauto 10 with frame|].
  intros [|]; eauto 10 with frame.
Qed.

#[local] Hint Resolve keeps_queue_prepare keeps_queue_execute : frame.

Lemma keeps_queue_processJob (E : Env) (id : string) (params : JobParams) :
  keeps_queue (processJob E id params).
Proof.
  unfold processJob.
  do 2 (apply keeps_queue_bind; [eauto with frame|intros _]).
  apply keeps_queue_bind; [eauto with frame|intros all_prs].
  case_bool_decide; eauto 20 with frame.
Qed.

(** ** Traces *)

Lemma commands_app (t1 t2 : list Event) : commands (t1 ++ t2) = commands t1 ++ commands t2.
Proof. apply omap_app. Qed.

Lemma picked_app (t1 t2 : list Event) : picked (t1 ++ t2) = picked t1 ++ picked t2.
Proof. apply omap_app. Qed.

Lemma examined_app (t1 t2 : list Event) : examined (t1 ++ t2) = examined t1 ++ examined t2.
Proof. apply omap_app. Qed.

Lemma commands_nil_picked (t : list Event) : commands t = [] → picked t = [].
Proof.
  induction t as [|e t IH]; [done|].
  change (e :: t) with ([e] ++ t). rewrite commands_app, picked_app.
  destruct e; try done; simpl; auto.
Qed.

(** ** One turn of the loop on a claimed job *)

Lemma execSync_gh (E : Env) (repo search : string) (limit : N) (w : World) :
  execSync E (gh_pr_list repo search limit) w =
  match merged_prs E repo search with
  | Some prs => (Returned (take (N.to_nat limit) prs), emit (Exec (gh_pr_list repo search limit)) w)
  | None => (Thrown (checkExecSyncError (gh_pr_list repo search limit)
                       (Some (stderr_of E (gh_pr_list repo search limit)))),
             emit (Exec (gh_pr_list repo search limit)) w)
  end.
Proof. unfold execSync, execSync_with, sh. by destruct (merged_prs E repo search). Qed.

(** [sendWebhook] returns and leaves everything but the trace alone. *)
Lemma sendWebhook_returns (params : JobParams) (s : JobState) (error : option string)
    (w : World) :
  ∃ t, sendWebhook params s error w = (Returned (), emits t w) ∧ commands t = [].
Proof.
  unfold sendWebhook. destruct (callbackUrl (jp_params params)) as [url|].
  - destruct (truthy url).
    + rewrite bind_eq. unfold log, axios_post. rewrite !emit_emits, emits_emits.
      by eexists.
    + exists []. by rewrite emits_nil.
  - exists []. by rewrite emits_nil.
Qed.

(** The job taken by a turn of the loop ends in the state that the
    outcome of [processJob] decides, and [sendWebhook] runs once it is
    there. *)
Lemma main_iteration_claimed (E : Env) (w : World) (j : Job) (q' : list Job) :
  claim (queue w) = Some (j, q') → NoDup (job_id <$> queue w) →
  let jobParams := mkJobParams (job_params j) (job_id j) in
  let w1 := set_queue q' (emit GetNextJob w) in
  ∃ q'' w2 s e,
    main_iteration E w = (Returned (), (sendWebhook jobParams s e w2).2) ∧
    queue w2 = q'' ∧ find_job (job_id j) q'' = Some (set_job_state s e j) ∧
    match processJob E (job_id j) jobParams w1 with
    | (Returned _, w') =>
        s = completed ∧ e = None ∧ w2 = set_queue q'' (emit (CompleteJob (job_id j)) w')
    | (Thrown d, w') =>
        s = failed ∧ e = Some d ∧
        w2 = set_queue q'' (emit (FailJob (job_id j) d)
               (emit (Log ("[Worker] Job " +:+ job_id j +:+ " failed: " +:+ d)) w'))
    end.
Proof.
  intros Hc Hnd jobParams w1.
  pose proof (keeps_queue_processJob E (job_id j) jobParams w1) as Hq.
  unfold main_iteration. unfold try_catch at 1. rewrite bind_eq.
  unfold getNextJob at 1. rewrite Hc. fold w1. fold jobParams.
  unfold try_catch. rewrite bind_eq.
  destruct (processJob E (job_id j) jobParams w1) as [[[]|d] w'] eqn:Hp; simpl in Hq.
  - destruct (finish_claimed _ _ _ completed None Hc Hnd) as (q'' & Hf & Hfind).
    exists q'', (set_queue q'' (emit (CompleteJob (job_id j)) w')), completed, None.
    rewrite bind_eq. unfold completeJob at 1. rewrite Hq, Hf.
    destruct (sendWebhook_returns jobParams completed None
                (set_queue q'' (emit (CompleteJob (job_id j)) w'))) as (t & Ht & _).
    rewrite Ht. done.
  - destruct (finish_claimed _ _ _ failed (Some d) Hc Hnd) as (q'' & Hf & Hfind).
    exists q'', (set_queue q'' (emit (FailJob (job_id j) d)
                  (emit (Log ("[Worker] Job " +:+ job_id j +:+ " failed: " +:+ d)) w'))),
      failed, (Some d).
    rewrite bind_eq. unfold log at 1.
    assert ((if includes "cherry-pick" d then mret () else mret () : M ())
            = mret ()) as -> by (by destruct (includes _ _)).
    rewrite bind_eq. unfold mret at 1, M_ret at 1.
    rewrite bind_eq. unfold failJob at 1. simpl queue. rewrite Hq, Hf.
    destruct (sendWebhook_returns jobParams failed (Some d)
                (set_queue q'' (emit (FailJob (job_id j) d)
                   (emit (Log ("[Worker] Job " +:+ job_id j +:+ " failed: " +:+ d)) w'))))
      as (t & Ht & _).
    rewrite Ht. done.
Qed.

(** ** No matching changeset *)

Lemma processJob_no_changesets (E : Env) (id : string) (params : JobParams) (w : World) :
  merged_prs E (repository (jp_params params)) (prFilterQuery (jp_params params)) = Some [] →
  processJob E id params w =
  (Returned (),
   emits [Log ("[Worker] Processing job " +:+ id +:+ " for " +:+ repository (jp_params params));
          Log "[Worker] Fetching PRs...";
          Exec (gh_pr_list (repository (jp_params params))
                  (prFilterQuery (jp_params params)) PR_LIMIT);
          Log "[Worker] No matching PRs found. Job complete."] w).
Proof.
  intros Hprs. unfold processJob. rewrite bind_eq. unfold log at 1.
  rewrite bind_eq. unfold log at 1. rewrite bind_eq, execSync_gh, Hprs, take_nil.
  rewrite bool_decide_eq_true_2 by done. unfold log.
  by rewrite !emit_emits, !emits_emits.
Qed.

(** C6.  When the query of the job taken by a turn of the loop matches
    no changeset, the turn leaves the job [completed]; the only command
    it runs is the query itself, so that no clone is created or changed,
    no commit is applied and nothing is pushed. *)
Theorem C6_no_changesets_completes_untouched (E : Env) (w : World) (j : Job) (q' : list Job) :
  claim (queue w) = Some (j, q') → NoDup (job_id <$> queue w) →
  merged_prs E (repository (job_params j)) (prFilterQuery (job_params j)) = Some [] →
  ∃ w' t,
    main_iteration E w = (Returned (), w') ∧
    find_job (job_id j) (queue w') = Some (set_job_state completed None j) ∧
    disk w' = disk w ∧ cwd w' = cwd w ∧ github w' = github w ∧
    trace w' = trace w ++ t ∧
    commands t = [gh_pr_list (repository (job_params j)) (prFilterQuery (job_params j)) PR_LIMIT] ∧
    picked t = [].
Proof.
  intros Hc Hnd Hprs.
  destruct (main_iteration_claimed E w j q' Hc Hnd) as (q'' & w2 & s & e & Hrun & Hq & Hfind & Hout).
  rewrite (processJob_no_changesets E) in Hout by done.
  destruct Hout as (-> & -> & ->).
  match type of Hrun with context [sendWebhook ?p ?s ?e ?w0] =>
    destruct (sendWebhook_returns p s e w0) as (t & Ht & Hcmd)
  end.
  rewrite Ht in Hrun. simpl in Hrun.
  eexists _, _. split; [exact Hrun|]. simpl.
  split; [done|]. do 3 (split; [done|]).
  split; [rewrite <- !app_assoc; reflexivity|].
  rewrite !commands_app, !picked_app, Hcmd, (commands_nil_picked t Hcmd). done.
Qed.

(** The scenario with a query that matches nothing. *)
Lemma C6_witness :
  let E := scenario_env [] [] in
  let w := submitted E in
  let j := mkJob "job-0" demo_params running None in
  claim (queue w) = Some (j, [j]) ∧
  NoDup (job_id <$> queue w) ∧
  merged_prs E (repository (job_params j)) (prFilterQuery (job_params j)) = Some [] ∧
  ∃ w' t,
    main_iteration E w = (Returned (), w') ∧
    find_job (job_id j) (queue w') = Some (set_job_state completed None j) ∧
    disk w' = disk w ∧ cwd w' = cwd w ∧ github w' = github w ∧
    trace w' = trace w ++ t ∧
    commands t = [gh_pr_list (repository (job_params j)) (prFilterQuery (job_params j)) PR_LIMIT] ∧
    picked t = [].
Proof.
  intros E w j.
  assert (claim (queue w) = Some (j, [j])) as Hc by reflexivity.
  assert (NoDup (job_id <$> queue w)) as Hnd by (vm_compute; apply NoDup_singleton).
  assert (merged_prs E (repository (job_params j)) (prFilterQuery (job_params j)) = Some [])
    as Hprs by reflexivity.
  split_and!; [exact Hc|exact Hnd|exact Hprs|].
  exact (C6_no_changesets_completes_untouched E w j [j] Hc Hnd Hprs).
Defined.

(** ** Notification *)

(** C7.  [sendWebhook] does nothing when the job has no callback URL.
    With one, it logs, hands the event to [axios.post] and returns at
    once.  When the request later fails, the failure is logged and
    nothing else happens.  In a turn of the loop [sendWebhook] runs on a
    store in which the job is already [completed] or [failed]; neither it
    nor the settling of the request, however it ends, touches the store. *)
Theorem C7_notification_is_best_effort (E : Env) (w : World) :
  (∀ params s error,
     callbackUrl (jp_params params) = None →
     sendWebhook params s error w = (Returned (), w)) ∧
  (∀ params s error url,
     callbackUrl (jp_params params) = Some url → url ≠ "" →
     sendWebhook params s error w =
       (Returned (),
        emits [Log ("[Worker] Sending webhook to: " +:+ url);
               Post url (mkPayload (jp_jobId params) s (repository (jp_params params))
                           (or_null error))] w)) ∧
  (∀ detail,
     webhook_settled (Some detail) w =
       (Returned (), emit (Log ("[Worker] Failed to send webhook: " +:+ detail)) w)) ∧
  (∀ j q',
     claim (queue w) = Some (j, q') → NoDup (job_id <$> queue w) →
     ∃ w_done w' s e,
       main_iteration E w = (Returned (), w') ∧
       (s = completed ∨ s = failed) ∧
       find_job (job_id j) (queue w_done) = Some (set_job_state s e j) ∧
       sendWebhook (mkJobParams (job_params j) (job_id j)) s e w_done = (Returned (), w') ∧
       ∀ failure, queue (webhook_settled failure w').2 = queue w_done).
Proof.
  split_and!.
  - intros params s error Hurl. unfold sendWebhook. by rewrite Hurl.
  - intros params s error url Hurl Hne%truthy_true. unfold sendWebhook.
    rewrite Hurl, Hne, bind_eq. unfold log, axios_post.
    by rewrite !emit_emits, emits_emits.
  - done.
  - intros j q' Hc Hnd.
    destruct (main_iteration_claimed E w j q' Hc Hnd)
      as (q'' & w2 & s & e & Hrun & Hq & Hfind & Hout).
    match type of Hrun with context [sendWebhook ?p ?s ?e ?w0] =>
      destruct (sendWebhook_returns p s e w0) as (t & Ht & _)
    end.
    rewrite Ht in Hrun. simpl in Hrun.
    exists w2, (emits t w2), s, e. split_and!.
    + done.
    + destruct (processJob _ _ _ _) as [[?|?] ?]; destruct Hout as (-> & _); auto.
    + by rewrite Hq.
    + done.
    + by intros [d|].
Qed.

(** The scenario with a callback URL and a conflicting commit: the job
    is [failed] when the event is sent, and stays so. *)
Lemma C7_witness :
  let E := scenario_env demo_prs ["cA"] in
  let p := mkParams "org/app" "release/2.1" "label:backport" (Some "https://ci.example/hook") in
  let w := (enqueueCherryPickJob E p demo_clone).2 in
  let j := mkJob "job-0" p running None in
  claim (queue w) = Some (j, [j]) ∧
  NoDup (job_id <$> queue w) ∧
  ∃ w_done w' s e,
    main_iteration E w = (Returned (), w') ∧
    (s = completed ∨ s = failed) ∧
    find_job (job_id j) (queue w_done) = Some (set_job_state s e j) ∧
    sendWebhook (mkJobParams (job_params j) (job_id j)) s e w_done = (Returned (), w') ∧
    ∀ failure, queue (webhook_settled failure w').2 = queue w_done.
Proof.
  intros E p w j.
  assert (claim (queue w) = Some (j, [j])) as Hc by reflexivity.
  assert (NoDup (job_id <$> queue w)) as Hnd by (vm_compute; apply NoDup_singleton).
  split_and!; [exact Hc|exact Hnd|].
  exact (proj2 (proj2 (proj2 (C7_notification_is_best_effort E w))) j [j] Hc Hnd).
Defined.

(** ** Commands in the clone *)

Lemma execSync_with_in_repo (stdio : StdioOption) (E : Env) (c : Cmd) (w : World) (r : Repo) :
  in_repo c → disk w !! cwd w = Some r →
  execSync_with stdio E c w =
  ((if (git_in_repo E (github w) c r).1 then Returned []
    else Thrown (checkExecSyncError c match stdio with
                                      | stdio_pipe => Some (stderr_of E c)
                                      | stdio_inherit => None
                                      end)),
   set_disk (<[cwd w := (git_in_repo E (github w) c r).2]> (disk w)) (emit (Exec c) w)).
Proof.
  intros Hc Hr. unfold execSync_with.
  assert (sh E c (emit (Exec c) w) =
          ((if (git_in_repo E (github w) c r).1 then Some [] else None),
           set_disk (<[cwd w := (git_in_repo E (github w) c r).2]> (disk w))
             (emit (Exec c) w))) as ->.
  { destruct c; try done; unfold sh; simpl disk; simpl cwd; simpl github; rewrite Hr;
      by destruct (git_in_repo _ _ _ _). }
  by destruct (git_in_repo E (github w) c r).1.
Qed.

Lemma set_disk_here (w : World) (r : Repo) (t : list Event) :
  disk w !! cwd w = Some r → set_disk (<[cwd w := r]> (disk w)) (emits t w) = emits t w.
Proof. intros H. rewrite insert_id by done. by destruct w. Qed.

Lemma set_disk_emits (d : gmap string Repo) (t : list Event) (w : World) :
  set_disk d (emits t w) = emits t (set_disk d w).
Proof. reflexivity. Qed.

(** One turn of the [for] loop, case by case. *)
Lemma execute_cons (E : Env) (branch sha : string) (rest : list string) (w : World) (r : Repo) :
  disk w !! cwd w = Some r →
  execute_cherry_picks E branch (sha :: rest) w =
  if contains_grep r sha branch then
    execute_cherry_picks E branch rest
      (emits [Exec (git_branch_contains sha branch);
              Log ("[Worker] Commit " +:+ sha +:+ " is already on " +:+ branch +:+ ". Skipping.")] w)
  else
    let t := [Exec (git_branch_contains sha branch);
              Log ("[Worker] Picking commit: " +:+ sha);
              Log ("[Worker] > " +:+ render (git_cherry_pick sha));
              Exec (git_cherry_pick sha)] in
    match CHERRY_PICK_HEAD r, branches r !! HEAD r with
    | None, Some l =>
        match pick E l sha with
        | Some c' =>
            execute_cherry_picks E branch rest
              (set_disk (<[cwd w := set_branch (HEAD r) (c' :: l) r]> (disk w)) (emits t w))
        | None =>
            (Thrown ("Command failed: " +:+ render (git_cherry_pick sha)),
             set_disk (<[cwd w := set_CHERRY_PICK_HEAD (Some sha) r]> (disk w)) (emits t w))
        end
    | _, _ => (Thrown ("Command failed: " +:+ render (git_cherry_pick sha)), emits t w)
    end.
Proof.
  intros Hr. simpl execute_cherry_picks. rewrite bind_eq. unfold try_catch.
  unfold execSync.
  rewrite bind_eq, (execSync_with_in_repo _ E _ w r) by done.
  simpl git_in_repo. simpl fst. simpl snd.
  rewrite emit_emits, set_disk_here by done.
  destruct (contains_grep r sha branch).
  - rewrite bind_eq. unfold log at 1. unfold mret at 1, M_ret at 1.
    by rewrite !emit_emits, emits_emits.
  - unfold mret at 1, M_ret at 1. rewrite bind_eq. unfold log at 1.
    rewrite bind_eq. unfold run. rewrite bind_eq. unfold log at 1. rewrite bind_eq.
    rewrite (execSync_with_in_repo _ E _ _ r) by done. unfold checkExecSyncError.
    simpl git_in_repo. simpl github. simpl cwd. simpl disk.
    rewrite !emit_emits, !emits_emits. simpl app.
    destruct (CHERRY_PICK_HEAD r) as [c|]; simpl fst; simpl snd.
    { rewrite set_disk_here by done. by destruct (branches r !! HEAD r). }
    destruct (branches r !! HEAD r) as [l|]; simpl fst; simpl snd.
    2: { by rewrite set_disk_here. }
    by destruct (pick E l sha) as [c'|].
Qed.

(** ** Skipping *)

Lemma execute_skip (E : Env) (branch sha : string) (rest : list string) (w : World) (r : Repo) :
  disk w !! cwd w = Some r → contains_grep r sha branch = true →
  execute_cherry_picks E branch (sha :: rest) w =
  execute_cherry_picks E branch rest
    (emits [Exec (git_branch_contains sha branch);
            Log ("[Worker] Commit " +:+ sha +:+ " is already on " +:+ branch +:+ ". Skipping.")] w).
Proof. intros Hr Hc. by rewrite (execute_cons E branch sha rest w r Hr), Hc. Qed.

(** C10.  The check run for a commit is [git branch --contains sha | grep
    targetBranch].  Whenever some local branch whose name contains the
    target branch name holds the commit, the loop goes on to the next
    commit after the check and one log line, without a cherry-pick and
    without an error; whether the commit is reachable from the target
    branch itself plays no part. *)
Theorem C10_skip_by_branch_name_occurrence (E : Env) (w : World) (r : Repo)
    (target sha b : string) (h rest : list string) :
  disk w !! cwd w = Some r →
  branches r !! b = Some h → sha ∈ h → occurs_in target b →
  execute_cherry_picks E target (sha :: rest) w =
  execute_cherry_picks E target rest
    (emits [Exec (git_branch_contains sha target);
            Log ("[Worker] Commit " +:+ sha +:+ " is already on " +:+ target +:+ ". Skipping.")] w).
Proof.
  intros Hr Hb Hsha Hocc. apply (execute_skip E target sha rest w r Hr).
  by apply (contains_grep_occurrence r sha target b h).
Qed.

Lemma contains_grep_reachable (r : Repo) (branch sha : string) (l : list string) :
  branches r !! branch = Some l → sha ∈ l → contains_grep r sha branch = true.
Proof.
  intros Hb Hsha. apply (contains_grep_occurrence r sha branch branch l); [done..|].
  apply occurs_in_refl.
Qed.

(** A commit reachable from the tip of the target branch when the loop
    starts is handed to [git cherry-pick] at no turn. *)
Lemma reachable_never_picked (E : Env) (branch : string) (commits : list string) :
  ∀ (w : World) (r : Repo) (l : list string),
    disk w !! cwd w = Some r → HEAD r = branch → branches r !! branch = Some l →
    ∃ t, trace (execute_cherry_picks E branch commits w).2 = trace w ++ t ∧
         ∀ sha, sha ∈ l → sha ∉ picked t.
Proof.
  induction commits as [|sha0 rest IH]; intros w r l Hr HH Hb.
  - exists []. split; [by rewrite app_nil_r|]. intros sha _. apply not_elem_of_nil.
  - rewrite (execute_cons E branch sha0 rest w r Hr).
    destruct (contains_grep r sha0 branch) eqn:Hc.
    + edestruct (IH (emits [Exec (git_branch_contains sha0 branch);
             Log ("[Worker] Commit " +:+ sha0 +:+ " is already on " +:+ branch +:+ ". Skipping.")] w)
                  r l) as (t & Ht & Hp); [done..|].
      rewrite Ht. eexists. split; [simpl; by rewrite <- app_assoc|].
      intros sha Hsha. rewrite picked_app. simpl. by apply Hp.
    + assert (sha0 ∉ l) as Hnotin.
      { intros Hin. by rewrite (contains_grep_reachable r branch sha0 l) in Hc. }
      assert (∀ sha, sha ∈ l → sha ≠ sha0) as Hne by (intros sha Hsha ->; done).
      cbv zeta. rewrite HH, Hb.
      destruct (CHERRY_PICK_HEAD r) as [c|];
        [|destruct (pick E l sha0) as [c'|] eqn:Hpick].
      * eexists. split; [reflexivity|]. intros sha Hsha. simpl.
        apply not_elem_of_cons. split; [by apply Hne|apply not_elem_of_nil].
      * edestruct (IH (set_disk (<[cwd w := set_branch branch (c' :: l) r]> (disk w))
                    (emits [Exec (git_branch_contains sha0 branch);
                            Log ("[Worker] Picking commit: " +:+ sha0);
                            Log ("[Worker] > " +:+ render (git_cherry_pick sha0));
                            Exec (git_cherry_pick sha0)] w))
                    (set_branch branch (c' :: l) r) (c' :: l)) as (t & Ht & Hp).
        { simpl. apply lookup_insert_eq. }
        { done. }
        { simpl. apply lookup_insert_eq. }
        rewrite Ht. eexists. split; [simpl; by rewrite <- app_assoc|].
        intros sha Hsha. rewrite picked_app. simpl.
        apply not_elem_of_cons. split; [by apply Hne|]. apply Hp. by apply list_elem_of_further.
      * eexists. split; [reflexivity|]. intros sha Hsha. simpl.
        apply not_elem_of_cons. split; [by apply Hne|apply not_elem_of_nil].
Qed.

(** ** Clones that do not change *)

Lemma set_branch_id (r : Repo) (b : string) (l : list string) :
  branches r !! b = Some l → set_branch b l r = r.
Proof. intros H. destruct r. unfold set_branch. simpl in *. by rewrite insert_id. Qed.

Lemma set_HEAD_id (r : Repo) : set_HEAD (HEAD r) r = r.
Proof. by destruct r. Qed.

Lemma set_CHERRY_PICK_HEAD_id (r : Repo) :
  set_CHERRY_PICK_HEAD (CHERRY_PICK_HEAD r) r = r.
Proof. by destruct r. Qed.

Lemma contains_grep_after_pick (r : Repo) (c x pattern : string) (l : list string) :
  branches r !! HEAD r = Some l → contains_grep r c pattern = true →
  contains_grep (set_branch (HEAD r) (x :: l) r) c pattern = true.
Proof.
  intros Hl (b & h & Hb & Hc & Hg)%contains_grep_true. apply contains_grep_true.
  destruct (decide (b = HEAD r)) as [->|Hne].
  - exists (HEAD r), (x :: l). simpl. rewrite lookup_insert_eq.
    split_and!; [done| |done]. simplify_eq. by apply list_elem_of_further.
  - exists b, h. simpl. by rewrite lookup_insert_ne.
Qed.

(** ** [run] in the clone *)

Lemma run_in_repo (E : Env) (c : Cmd) (w : World) (r : Repo) :
  in_repo c → disk w !! cwd w = Some r →
  run E c w =
  ((if (git_in_repo E (github w) c r).1 then Returned ()
    else Thrown ("Command failed: " +:+ render c)),
   set_disk (<[cwd w := (git_in_repo E (github w) c r).2]> (disk w))
     (emits [Log ("[Worker] > " +:+ render c); Exec c] w)).
Proof.
  intros Hc Hr. unfold run. rewrite bind_eq. unfold log at 1.
  rewrite bind_eq, (execSync_with_in_repo _ E c _ r) by done. unfold checkExecSyncError.
  simpl github. simpl cwd. simpl disk.
  rewrite !emit_emits, emits_emits.
  by destruct (git_in_repo E (github w) c r).1.
Qed.

Lemma run_git_push (E : Env) (b : string) (w : World) :
  run E (git_push b) w =
  match disk w !! cwd w with
  | Some r =>
      match branches r !! b, github w !! origin r with
      | Some l, Some bs =>
          if bool_decide (default [] (bs !! b) `suffix_of` l)
          then (Returned (),
                set_github (<[origin r := <[b := l]> bs]> (github w))
                  (emits [Log ("[Worker] > " +:+ render (git_push b)); Exec (git_push b)] w))
          else (Thrown ("Command failed: " +:+ render (git_push b)),
                emits [Log ("[Worker] > " +:+ render (git_push b)); Exec (git_push b)] w)
      | _, _ => (Thrown ("Command failed: " +:+ render (git_push b)),
                 emits [Log ("[Worker] > " +:+ render (git_push b)); Exec (git_push b)] w)
      end
  | None => (Thrown ("Command failed: " +:+ render (git_push b)),
             emits [Log ("[Worker] > " +:+ render (git_push b)); Exec (git_push b)] w)
  end.
Proof.
  unfold run. rewrite bind_eq. unfold log at 1. rewrite bind_eq.
  unfold execSync_with, checkExecSyncError, sh.
  simpl disk. simpl cwd. simpl github. rewrite !emit_emits, !emits_emits. simpl app.
  destruct (disk w !! cwd w) as [r|]; [|done].
  destruct (branches r !! b) as [l|]; [|done].
  destruct (github w !! origin r) as [bs|]; [|done].
  by case_bool_decide.
Qed.

Lemma run_git_clone (E : Env) (branch repo dir : string) (w : World) :
  run E (git_clone branch repo dir) w =
  let t := [Log ("[Worker] > " +:+ render (git_clone branch repo dir));
            Exec (git_clone branch repo dir)] in
  match disk w !! dir, github w !! repo ≫= λ bs, bs !! branch with
  | None, Some h =>
      (Returned (), set_disk (<[dir := mkRepo repo {[branch := h]} branch None]> (disk w))
                      (emits t w))
  | _, _ => (Thrown ("Command failed: " +:+ render (git_clone branch repo dir)), emits t w)
  end.
Proof.
  unfold run. rewrite bind_eq. unfold log at 1. rewrite bind_eq.
  unfold execSync_with, checkExecSyncError, sh.
  simpl disk. simpl github. rewrite !emit_emits, !emits_emits. simpl app.
  destruct (disk w !! dir) as [r|]; [done|].
  by destruct (github w !! repo ≫= λ bs, bs !! branch).
Qed.

Lemma run_in_repo_inv (E : Env) (c : Cmd) (w w' : World) (r : Repo) :
  in_repo c → disk w !! cwd w = Some r → run E c w = (Returned (), w') →
  (git_in_repo E (github w) c r).1 = true ∧
  cwd w' = cwd w ∧ github w' = github w ∧
  disk w' !! cwd w' = Some (git_in_repo E (github w) c r).2.
Proof.
  intros Hc Hr. rewrite (run_in_repo E c w r Hc Hr).
  destruct (git_in_repo E (github w) c r) as [[|] r']; [|done].
  intros [= <-]. simpl. by rewrite lookup_insert_eq.
Qed.

(** ** Preparing the clone *)

(** After "2. Prepare Local Repo" the working directory is the clone of
    the repository, on the target branch, level with its remote branch
    and with no cherry-pick in progress. *)
Lemma prepare_post (E : Env) (repo branch : string) (w w' : World) :
  prepare_local_repo E repo branch w = (Returned (), w') →
  ∃ r h, cwd w' = WORKSPACE repo ∧ disk w' !! cwd w' = Some r ∧ github w' = github w ∧
         HEAD r = branch ∧ CHERRY_PICK_HEAD r = None ∧
         branches r !! branch = Some h ∧ remote_branch (github w) r branch = Some h.
Proof.
  unfold prepare_local_repo. intros H.
  inv_log H.
  apply bind_inv in H as (present & w0' & Hex & H). injection Hex as <- <-.
  apply bind_inv in H as ([] & w1 & Hclone & H).
  assert (∃ rA, disk w1 !! WORKSPACE repo = Some rA ∧ github w1 = github w) as (rA & HrA & Hg1).
  { case_bool_decide as Hp.
    - injection Hclone as <-. simpl in *. destruct Hp as [rA HrA]. by exists rA.
    - rewrite run_git_clone in Hclone. simpl in Hclone, Hp.
      destruct (disk w !! WORKSPACE repo); [done|].
      destruct (github w !! repo ≫= λ bs, bs !! branch) as [h|]; [|done].
      injection Hclone as <-. simpl. rewrite lookup_insert_eq. by eexists. }
  apply bind_inv in H as ([] & w2 & Hcd & H). unfold chdir in Hcd.
  rewrite bool_decide_eq_true_2 in Hcd by (by rewrite HrA). injection Hcd as <-.
  apply bind_inv in H as ([] & w3 & Hfetch & H).
  apply (run_in_repo_inv E _ _ _ rA) in Hfetch as (_ & Hc3 & Hg3 & Hr3); [|done..].
  simpl in Hc3, Hg3, Hr3.
  apply bind_inv in H as ([] & w4 & Hco & H).
  apply (run_in_repo_inv E _ _ _ rA) in Hco as (Hok4 & Hc4 & Hg4 & Hr4); [|done..].
  simpl in Hok4, Hr4. case_bool_decide as Hb; [|done]. simpl in Hr4.
  apply bind_inv in H as ([] & w5 & Hreset & H).
  apply (run_in_repo_inv E _ _ _ (set_HEAD branch rA)) in Hreset
    as (Hok5 & Hc5 & Hg5 & Hr5); [|done..].
  simpl in Hok5, Hr5.
  destruct (remote_branch (github w4) (set_HEAD branch rA) branch) as [h|] eqn:Hrem; [|done].
  simpl in Hr5.
  apply (run_in_repo_inv E _ _ _ (set_CHERRY_PICK_HEAD None (set_branch branch h (set_HEAD branch rA))))
    in H as (Hok6 & Hc6 & Hg6 & Hr6); [|done..].
  assert (remote_branch (github w5) (set_CHERRY_PICK_HEAD None (set_branch branch h (set_HEAD branch rA)))
            branch = Some h) as Hrem5.
  { rewrite Hg5. exact Hrem. }
  simpl in Hok6, Hr6. rewrite Hrem5 in Hok6, Hr6. rewrite lookup_insert_eq in Hok6, Hr6.
  rewrite bool_decide_eq_true_2 in Hr6 by done. simpl in Hr6.
  eexists _, h. split_and!.
  - by rewrite Hc6, Hc5, Hc4, Hc3.
  - exact Hr6.
  - by rewrite Hg6, Hg5, Hg4, Hg3.
  - done.
  - done.
  - simpl. by rewrite lookup_insert_eq.
  - rewrite <- Hg1, <- Hg3, <- Hg4. exact Hrem.
Qed.

(** ** The order of replay *)

Lemma examines_nothing_bind {A B} (m : M A) (k : A → M B) :
  examines_nothing m → (∀ a, examines_nothing (k a)) → examines_nothing (m ≫= k).
Proof.
  intros Hm Hk w. rewrite bind_eq. destruct (Hm w) as (t1 & Ht1 & He1).
  destruct (m w) as [[a|e] w1]; simpl in *; [|by exists t1].
  destruct (Hk a w1) as (t2 & Ht2 & He2). exists (t1 ++ t2).
  rewrite Ht2, Ht1, examined_app, He1, He2. by rewrite app_assoc.
Qed.

Lemma examines_nothing_ret {A} (a : A) : examines_nothing (mret a).
Proof. intros w. exists []. by rewrite app_nil_r. Qed.

Lemma examines_nothing_log (line : string) : examines_nothing (log line).
Proof. intros w. by exists [Log line]. Qed.

Lemma sh_trace (E : Env) (c : Cmd) (w : World) : trace (sh E c w).2 = trace w.
Proof. destruct c; simpl; repeat case_match; simplify_eq/=; done. Qed.

Lemma examines_nothing_run (E : Env) (c : Cmd) :
  (∀ sha pattern, c ≠ git_branch_contains sha pattern) → examines_nothing (run E c).
Proof.
  intros Hc. unfold run.
  apply examines_nothing_bind; [apply examines_nothing_log|intros _].
  apply examines_nothing_bind; [|intros _; apply examines_nothing_ret].
  intros w. unfold execSync_with. pose proof (sh_trace E c (emit (Exec c) w)) as H.
  exists [Exec c]. destruct (sh E c (emit (Exec c) w)) as [[out|] w1]; simpl in *;
    (split; [done|]); destruct c; try done; by destruct (Hc sha pattern).
Qed.

Lemma examines_nothing_prepare (E : Env) (repo branch : string) :
  examines_nothing (prepare_local_repo E repo branch).
Proof.
  unfold prepare_local_repo.
  apply examines_nothing_bind; [apply examines_nothing_log|intros _].
  apply examines_nothing_bind.
  { intros w. exists []. by rewrite app_nil_r. }
  intros present. apply examines_nothing_bind.
  { destruct present; [apply examines_nothing_ret|by apply examines_nothing_run]. }
  intros _. apply examines_nothing_bind.
  { intros w. exists [Chdir (WORKSPACE repo)]. unfold chdir. by case_bool_decide. }
  intros _.
  repeat (apply examines_nothing_bind; [by apply examines_nothing_run|intros _]).
  by apply examines_nothing_run.
Qed.

(** When the loop goes through, it has examined the commits of its list,
    each once, in the order of the list. *)
Lemma execute_examined (E : Env) (branch : string) (commits : list string) :
  ∀ (w w' : World) (r : Repo),
    disk w !! cwd w = Some r →
    execute_cherry_picks E branch commits w = (Returned (), w') →
    ∃ t, trace w' = trace w ++ t ∧ examined t = commits.
Proof.
  induction commits as [|sha rest IH]; intros w w' r Hr Hrun.
  - injection Hrun as <-. exists []. by rewrite app_nil_r.
  - rewrite (execute_cons E branch sha rest w r Hr) in Hrun.
    destruct (contains_grep r sha branch).
    + apply (IH _ _ r) in Hrun as (t & -> & <-); [|done].
      eexists. split; [simpl; by rewrite <- app_assoc|]. by rewrite examined_app.
    + cbv zeta in Hrun.
      destruct (CHERRY_PICK_HEAD r) as [c0|]; [done|].
      destruct (branches r !! HEAD r) as [l|]; [|done].
      destruct (pick E l sha) as [c'|]; [|done].
      apply (IH _ _ (set_branch (HEAD r) (c' :: l) r)) in Hrun;
        [|simpl; apply lookup_insert_eq].
      destruct Hrun as (t & -> & <-).
      eexists. split; [simpl; by rewrite <- app_assoc|]. by rewrite examined_app.
Qed.

(** A job that goes through has examined the merge commits of the
    response, in the order of the response. *)
Lemma processJob_examined (E : Env) (id : string) (params : JobParams) (w w' : World)
    (prs : list PullRequest) :
  merged_prs E (repository (jp_params params)) (prFilterQuery (jp_params params)) = Some prs →
  processJob E id params w = (Returned (), w') →
  ∃ t, trace w' = trace w ++ t ∧
       examined t = commitsToPick (take (N.to_nat PR_LIMIT) prs).
Proof.
  intros Hprs. unfold processJob. intros H.
  inv_log H.
  inv_log H.
  apply bind_inv in H as (all_prs & w0' & Hgh & H).
  rewrite execSync_gh, Hprs in Hgh. injection Hgh as <- <-.
  case_bool_decide as Hlen.
  - injection H as <-. apply nil_length_inv in Hlen as ->.
    eexists. split; [simpl; rewrite <- !app_assoc; reflexivity|done].
  - apply bind_inv in H as ([] & wp & Hprep & H).
    destruct (examines_nothing_prepare E (repository (jp_params params))
                (targetBranch (jp_params params))
                (emit (Exec (gh_pr_list (repository (jp_params params))
                               (prFilterQuery (jp_params params)) PR_LIMIT))
                   (emit (Log "[Worker] Fetching PRs...")
                      (emit (Log ("[Worker] Processing job " +:+ id +:+ " for "
                                  +:+ repository (jp_params params))) w))))
      as (tp & Htp & Hep).
    rewrite Hprep in Htp. simpl in Htp.
    apply prepare_post in Hprep as (r & h & Hcwd & Hr & _).
    inv_log H.
    apply bind_inv in H as ([] & wl & Hloop & H).
    apply (execute_examined E _ _ _ _ r) in Hloop as (tl & Htl & Hel); [|done].
    inv_log H.
    apply bind_inv in H as ([] & wpush & Hpush & H). injection H as <-.
    destruct (examines_nothing_run E (git_push (targetBranch (jp_params params)))
                ltac:(done) (emit (Log "[Worker] All commits cherry-picked. Pushing changes...") wl))
      as (tq & Htq & Heq).
    rewrite Hpush in Htq. simpl in Htq, Htl.
    eexists. split.
    + simpl. rewrite Htq, Htl, Htp. rewrite <- !app_assoc. reflexivity.
    + rewrite !examined_app, Hep, Hel, Heq. simpl. by rewrite app_nil_r.
Qed.

(** ** A conflicting commit *)

(** A cherry-pick that conflicts makes the loop throw; the clone is left
    as [git cherry-pick] left it, with the cherry-pick in progress. *)
Lemma execute_conflict (E : Env) (branch sha : string) (rest l : list string)
    (w : World) (r : Repo) :
  disk w !! cwd w = Some r → contains_grep r sha branch = false →
  CHERRY_PICK_HEAD r = None → branches r !! HEAD r = Some l → pick E l sha = None →
  ∃ w', execute_cherry_picks E branch (sha :: rest) w =
          (Thrown ("Command failed: git cherry-pick " +:+ sha), w') ∧
        disk w' !! cwd w' = Some (set_CHERRY_PICK_HEAD (Some sha) r) ∧
        last (commands (trace w')) = Some (git_cherry_pick sha).
Proof.
  intros Hr Hc Hcp Hl Hp. rewrite (execute_cons E branch sha rest w r Hr), Hc.
  cbv zeta. rewrite Hcp, Hl, Hp. eexists. split; [reflexivity|]. simpl.
  split; [apply lookup_insert_eq|]. by rewrite commands_app, last_app.
Qed.

(** The job whose [processJob] threw is left [failed] with the message
    thrown, and the turn of the loop runs no command after the one that
    failed: the clones, the working directory and the remotes stay as
    [processJob] left them. *)
Lemma main_iteration_thrown (E : Env) (w w' : World) (j : Job) (q' : list Job) (d : string) :
  claim (queue w) = Some (j, q') → NoDup (job_id <$> queue w) →
  processJob E (job_id j) (mkJobParams (job_params j) (job_id j))
    (set_queue q' (emit GetNextJob w)) = (Thrown d, w') →
  ∃ w'' t,
    main_iteration E w = (Returned (), w'') ∧
    find_job (job_id j) (queue w'') = Some (set_job_state failed (Some d) j) ∧
    disk w'' = disk w' ∧ cwd w'' = cwd w' ∧ github w'' = github w' ∧
    trace w'' = trace w' ++ t ∧ commands t = [].
Proof.
  intros Hc Hnd Hp.
  destruct (main_iteration_claimed E w j q' Hc Hnd)
    as (q'' & w2 & s & e & Hrun & Hq & Hfind & Hout).
  rewrite Hp in Hout. destruct Hout as (-> & -> & ->).
  match type of Hrun with context [sendWebhook ?p ?s ?e ?w0] =>
    destruct (sendWebhook_returns p s e w0) as (t & Ht & Hcmd)
  end.
  rewrite Ht in Hrun. simpl in Hrun.
  eexists _, _. split; [exact Hrun|]. simpl.
  split; [done|]. do 3 (split; [done|]).
  split; [rewrite <- !app_assoc; reflexivity|].
  by rewrite !commands_app, Hcmd.
Qed.

(** C1 (the code does not do what the claim says).  When [git
    cherry-pick] stops on a conflict, the loop throws an error that names
    the commit; the failed cherry-pick is the last command run and the
    clone is left with that cherry-pick in progress.  The turn of the
    loop of [main] then marks the job [failed] with that message and
    runs no further command: nothing aborts the cherry-pick, the clone
    stays as the failure left it. *)
Theorem C1_conflict_fails_job_without_abort (E : Env) :
  (∀ branch sha rest l w r,
     disk w !! cwd w = Some r → contains_grep r sha branch = false →
     CHERRY_PICK_HEAD r = None → branches r !! HEAD r = Some l → pick E l sha = None →
     ∃ w', execute_cherry_picks E branch (sha :: rest) w =
             (Thrown ("Command failed: git cherry-pick " +:+ sha), w') ∧
           disk w' !! cwd w' = Some (set_CHERRY_PICK_HEAD (Some sha) r) ∧
           last (commands (trace w')) = Some (git_cherry_pick sha)) ∧
  (∀ w w' j q' d,
     claim (queue w) = Some (j, q') → NoDup (job_id <$> queue w) →
     processJob E (job_id j) (mkJobParams (job_params j) (job_id j))
       (set_queue q' (emit GetNextJob w)) = (Thrown d, w') →
     ∃ w'' t,
       main_iteration E w = (Returned (), w'') ∧
       find_job (job_id j) (queue w'') = Some (set_job_state failed (Some d) j) ∧
       disk w'' = disk w' ∧ cwd w'' = cwd w' ∧ github w'' = github w' ∧
       trace w'' = trace w' ++ t ∧ commands t = []).
Proof.
  split.
  - intros branch sha rest l w r. apply execute_conflict.
  - intros w w' j q' d. apply main_iteration_thrown.
Qed.

(** The scenario of the specification in which the second commit
    conflicts, on a clone that holds the merge commits: the job fails with a message that names the commit, the
    first commit is on the local branch, nothing was pushed, and the
    clone has the cherry-pick of the second commit in progress. *)
Lemma C1_witness :
  let E := scenario_env demo_prs ["cA"] in
  let w := (enqueueCherryPickJob E demo_params demo_clone).2 in
  let j := mkJob "job-0" demo_params running None in
  let w' := (processJob E "job-0" (mkJobParams demo_params "job-0")
               (set_queue [j] (emit GetNextJob w))).2 in
  claim (queue w) = Some (j, [j]) ∧
  NoDup (job_id <$> queue w) ∧
  processJob E (job_id j) (mkJobParams (job_params j) (job_id j))
    (set_queue [j] (emit GetNextJob w)) = (Thrown "Command failed: git cherry-pick cA", w') ∧
  (disk w' !! WORKSPACE "org/app" ≫= λ r, branches r !! "release/2.1") = Some ["cB'"; "base"] ∧
  CHERRY_PICK_HEAD <$> disk w' !! WORKSPACE "org/app" = Some (Some "cA") ∧
  last (commands (trace w')) = Some (git_cherry_pick "cA") ∧
  github w' = github demo_clone ∧
  ∃ w'' t,
    main_iteration E w = (Returned (), w'') ∧
    find_job (job_id j) (queue w'') =
      Some (set_job_state failed (Some "Command failed: git cherry-pick cA") j) ∧
    disk w'' = disk w' ∧ cwd w'' = cwd w' ∧ github w'' = github w' ∧
    trace w'' = trace w' ++ t ∧ commands t = [].
Proof.
  intros E w j w'.
  assert (claim (queue w) = Some (j, [j])) as Hc by reflexivity.
  assert (NoDup (job_id <$> queue w)) as Hnd by (vm_compute; apply NoDup_singleton).
  assert (processJob E (job_id j) (mkJobParams (job_params j) (job_id j))
            (set_queue [j] (emit GetNextJob w))
          = (Thrown "Command failed: git cherry-pick cA", w')) as Hp
    by (vm_compute; reflexivity).
  split; [exact Hc|]. split; [exact Hnd|]. split; [exact Hp|].
  split; [vm_compute; reflexivity|]. split; [vm_compute; reflexivity|].
  split; [vm_compute; reflexivity|]. split; [vm_compute; reflexivity|].
  exact (proj2 (C1_conflict_fails_job_without_abort E) w w' j [j] _ Hc Hnd Hp).
Defined.

(** ** Idempotence *)

(** A commit that no matching branch holds is still held by none after
    another commit was recorded on the checked-out branch. *)
Lemma contains_grep_after_replay (r : Repo) (sha c' pattern : string) (l : list string) :
  branches r !! HEAD r = Some l → contains_grep r sha pattern = false → c' ≠ sha →
  contains_grep (set_branch (HEAD r) (c' :: l) r) sha pattern = false.
Proof.
  intros Hl Hc Hne. apply not_true_is_false.
  intros (b & h & Hb & Hsha & Hg)%contains_grep_true.
  assert (contains_grep r sha pattern = true) as Hc'; [|by rewrite Hc in Hc'].
  apply contains_grep_true. simpl in Hb.
  destruct (decide (b = HEAD r)) as [->|Hb'].
  - rewrite lookup_insert_eq in Hb. injection Hb as <-.
    apply elem_of_cons in Hsha as [->|Hsha]; [done|]. by exists (HEAD r), l.
  - rewrite lookup_insert_ne in Hb by done. by exists b, h.
Qed.

(** C2 (the code does not do what the claim says).  A commit reachable
    from the tip of the checked-out target branch is skipped: the loop
    goes on after the check and a log line, without an error, and no turn
    of the loop hands such a commit to [git cherry-pick].  But a commit
    that the loop replays is recorded under another identifier, so the
    check does not find it afterwards: the loop run again on the same
    commit hands it to [git cherry-pick] again, and fails, with the
    cherry-pick left in progress, when [git] finds nothing left to
    apply. *)
Theorem C2_reachable_skipped_but_replayed_picked_again (E : Env) :
  (∀ branch sha rest w r l,
     disk w !! cwd w = Some r → HEAD r = branch → branches r !! branch = Some l → sha ∈ l →
     execute_cherry_picks E branch (sha :: rest) w =
     execute_cherry_picks E branch rest
       (emits [Exec (git_branch_contains sha branch);
               Log ("[Worker] Commit " +:+ sha +:+ " is already on " +:+ branch
                    +:+ ". Skipping.")] w)) ∧
  (∀ branch commits w r l,
     disk w !! cwd w = Some r → HEAD r = branch → branches r !! branch = Some l →
     ∃ t, trace (execute_cherry_picks E branch commits w).2 = trace w ++ t ∧
          ∀ sha, sha ∈ l → sha ∉ picked t) ∧
  (∀ branch sha w r l c',
     disk w !! cwd w = Some r → CHERRY_PICK_HEAD r = None → branches r !! HEAD r = Some l →
     contains_grep r sha branch = false → pick E l sha = Some c' → c' ≠ sha →
     ∃ w1 t,
       execute_cherry_picks E branch [sha] w = (Returned (), w1) ∧
       disk w1 !! cwd w1 = Some (set_branch (HEAD r) (c' :: l) r) ∧
       trace (execute_cherry_picks E branch [sha] w1).2 = trace w1 ++ t ∧
       picked t = [sha] ∧
       (pick E (c' :: l) sha = None →
        (execute_cherry_picks E branch [sha] w1).1
          = Thrown ("Command failed: git cherry-pick " +:+ sha) ∧
        disk (execute_cherry_picks E branch [sha] w1).2 !! cwd w1
          = Some (set_CHERRY_PICK_HEAD (Some sha) (set_branch (HEAD r) (c' :: l) r)))).
Proof.
  split_and!.
  - intros branch sha rest w r l Hr _ Hb Hsha.
    apply (execute_skip E branch sha rest w r Hr).
    by apply (contains_grep_reachable r branch sha l).
  - intros branch commits w r l. apply reachable_never_picked.
  - intros branch sha w r l c' Hr Hcp Hl Hc Hp Hne.
    set (r1 := set_branch (HEAD r) (c' :: l) r).
    set (w1 := set_disk (<[cwd w := r1]> (disk w))
                 (emits [Exec (git_branch_contains sha branch);
                         Log ("[Worker] Picking commit: " +:+ sha);
                         Log ("[Worker] > " +:+ render (git_cherry_pick sha));
                         Exec (git_cherry_pick sha)] w)).
    assert (execute_cherry_picks E branch [sha] w = (Returned (), w1)) as Hfirst.
    { rewrite (execute_cons E branch sha [] w r Hr), Hc. cbv zeta. by rewrite Hcp, Hl, Hp. }
    assert (disk w1 !! cwd w1 = Some r1) as Hr1 by (simpl; apply lookup_insert_eq).
    pose proof (execute_cons E branch sha [] w1 r1 Hr1) as Hagain.
    assert (contains_grep r1 sha branch = false) as Hc1
      by (by apply contains_grep_after_replay).
    rewrite Hc1 in Hagain.
    cbv zeta in Hagain.
    assert (CHERRY_PICK_HEAD r1 = None) as Hcp1 by done.
    assert (branches r1 !! HEAD r1 = Some (c' :: l)) as Hl1
      by (simpl; apply lookup_insert_eq).
    rewrite Hcp1, Hl1 in Hagain.
    exists w1. eexists. split; [exact Hfirst|]. split; [exact Hr1|]. rewrite Hagain.
    destruct (pick E (c' :: l) sha) as [c''|].
    + split; [simpl; reflexivity|]. split; [reflexivity|]. intros [=].
    + split; [simpl; reflexivity|]. split; [reflexivity|]. intros _.
      split; [reflexivity|]. simpl. apply lookup_insert_eq.
Qed.

(** The scenario run twice on a clone that holds the merge commits.  The
    first job replays the three commits and pushes them; the second one
    finds none of them on the target branch, hands the first to [git
    cherry-pick] again and fails there, leaving the cherry-pick in
    progress. *)
Lemma C2_witness :
  let E := scenario_env demo_prs [] in
  let p := mkJobParams demo_params "job-0" in
  let start := demo_clone in
  let w := (prepare_local_repo E "org/app" "release/2.1" start).2 in
  let r := mkRepo "org/app"
             (<["main" := ["cC"; "cA"; "cB"; "base"]]> {[ "release/2.1" := ["base"] ]})
             "release/2.1" None in
  let w1 := (processJob E "job-0" p start).2 in
  (disk w !! cwd w = Some r ∧ CHERRY_PICK_HEAD r = None ∧
   branches r !! HEAD r = Some ["base"] ∧ contains_grep r "cB" "release/2.1" = false ∧
   pick E ["base"] "cB" = Some "cB'" ∧ "cB'" ≠ "cB" ∧ pick E ["cB'"; "base"] "cB" = None) ∧
  (processJob E "job-0" p start = (Returned (), w1) ∧
   picked (trace w1) = ["cB"; "cA"; "cC"] ∧
   (github w1 !! "org/app" ≫= λ bs, bs !! "release/2.1") = Some ["cC'"; "cA'"; "cB'"; "base"] ∧
   (processJob E "job-1" p w1).1 = Thrown "Command failed: git cherry-pick cB" ∧
   CHERRY_PICK_HEAD <$> disk (processJob E "job-1" p w1).2 !! WORKSPACE "org/app"
     = Some (Some "cB")) ∧
  ∃ w2 t,
    execute_cherry_picks E "release/2.1" ["cB"] w = (Returned (), w2) ∧
    disk w2 !! cwd w2 = Some (set_branch (HEAD r) ("cB'" :: ["base"]) r) ∧
    trace (execute_cherry_picks E "release/2.1" ["cB"] w2).2 = trace w2 ++ t ∧
    picked t = ["cB"] ∧
    (pick E ("cB'" :: ["base"]) "cB" = None →
     (execute_cherry_picks E "release/2.1" ["cB"] w2).1
       = Thrown ("Command failed: git cherry-pick " +:+ "cB") ∧
     disk (execute_cherry_picks E "release/2.1" ["cB"] w2).2 !! cwd w2
       = Some (set_CHERRY_PICK_HEAD (Some "cB") (set_branch (HEAD r) ("cB'" :: ["base"]) r))).
Proof.
  intros E p start w r w1.
  assert (disk w !! cwd w = Some r) as Hr by (vm_compute; reflexivity).
  assert (CHERRY_PICK_HEAD r = None) as Hcp by reflexivity.
  assert (branches r !! HEAD r = Some ["base"]) as Hl by (vm_compute; reflexivity).
  assert (contains_grep r "cB" "release/2.1" = false) as Hc by (vm_compute; reflexivity).
  assert (pick E ["base"] "cB" = Some "cB'") as Hp by (vm_compute; reflexivity).
  assert ("cB'" ≠ "cB") as Hne by discriminate.
  assert (pick E ["cB'"; "base"] "cB" = None) as Hp' by (vm_compute; reflexivity).
  split; [by split_and!|].
  split.
  { split; [vm_compute; reflexivity|]. split; [vm_compute; reflexivity|].
    split; [vm_compute; reflexivity|]. split; vm_compute; reflexivity. }
  exact (proj2 (proj2 (C2_reachable_skipped_but_replayed_picked_again E))
           "release/2.1" "cB" w r ["base"] "cB'" Hr Hcp Hl Hc Hp Hne).
Defined.

(** The commit ["cX"] is on [release/2.1-hotfix] only; with the target
    [release/2.1] it is skipped all the same. *)
Lemma C10_witness :
  disk hotfix_world !! cwd hotfix_world = Some hotfix_repo ∧
  branches hotfix_repo !! "release/2.1-hotfix" = Some ["cX"; "base"] ∧
  "cX" ∈ ["cX"; "base"] ∧
  occurs_in "release/2.1" "release/2.1-hotfix" ∧
  (branches hotfix_repo !! "release/2.1" = Some ["base"] ∧ "cX" ∉ ["base"]) ∧
  execute_cherry_picks (scenario_env demo_prs []) "release/2.1" ["cX"] hotfix_world =
    (Returned (),
     emits [Exec (git_branch_contains "cX" "release/2.1");
            Log "[Worker] Commit cX is already on release/2.1. Skipping."] hotfix_world).
Proof.
  assert (disk hotfix_world !! cwd hotfix_world = Some hotfix_repo) as Hr
    by (vm_compute; reflexivity).
  assert (branches hotfix_repo !! "release/2.1-hotfix" = Some ["cX"; "base"]) as Hb
    by (vm_compute; reflexivity).
  assert ("cX" ∈ ["cX"; "base"]) as Hsha by (apply list_elem_of_here).
  assert (occurs_in "release/2.1" "release/2.1-hotfix") as Hocc
    by (exists "", "-hotfix"; reflexivity).
  split_and!; [exact Hr|exact Hb|exact Hsha|exact Hocc|vm_compute; reflexivity| |].
  - intros [Heq|Hin]%elem_of_cons; [discriminate Heq|by apply elem_of_nil in Hin].
  - exact (C10_skip_by_branch_name_occurrence (scenario_env demo_prs []) hotfix_world
             hotfix_repo "release/2.1" "cX" "release/2.1-hotfix" ["cX"; "base"] []
             Hr Hb Hsha Hocc).
Defined.

(** ** The resolved changesets *)














(** * Further properties of the worker *)

(** ** Events of a program *)

Lemma emits_only_bind {A B} (P : Event → Prop) (m : M A) (k : A → M B) :
  emits_only P m → (∀ a, emits_only P (k a)) → emits_only P (m ≫= k).
Proof.
  intros Hm Hk w. rewrite bind_eq. destruct (Hm w) as (t1 & Ht1 & HP1).
  destruct (m w) as [[a|e] w1]; simpl in *; [|by exists t1].
  destruct (Hk a w1) as (t2 & Ht2 & HP2). exists (t1 ++ t2).
  rewrite Ht2, Ht1, app_assoc. split; [done|]. by apply Forall_app.
Qed.

Lemma emits_only_try_catch {A} (P : Event → Prop) (body : M A) (handler : string → M A) :
  emits_only P body → (∀ e, emits_only P (handler e)) → emits_only P (try_catch body handler).
Proof.
  intros Hm Hk w. unfold try_catch. destruct (Hm w) as (t1 & Ht1 & HP1).
  destruct (body w) as [[a|e] w1]; simpl in *; [by exists t1|].
  destruct (Hk e w1) as (t2 & Ht2 & HP2). exists (t1 ++ t2).
  rewrite Ht2, Ht1, app_assoc. split; [done|]. by apply Forall_app.
Qed.

Lemma emits_only_mono {A} (P Q : Event → Prop) (m : M A) :
  (∀ e, P e → Q e) → emits_only P m → emits_only Q m.
Proof.
  intros HPQ Hm w. destruct (Hm w) as (t & Ht & HP). exists t. split; [done|].
  by apply (Forall_impl P).
Qed.

Lemma emits_only_ret {A} (P : Event → Prop) (a : A) : emits_only P (mret a).
Proof. intros w. exists []. by rewrite app_nil_r. Qed.

Lemma emits_only_throw {A} (P : Event → Prop) (e : string) : emits_only P (throw e : M A).
Proof. intros w. exists []. by rewrite app_nil_r. Qed.

Lemma emits_only_log (P : Event → Prop) (line : string) :
  P (Log line) → emits_only P (log line).
Proof. intros HP w. exists [Log line]. split; [done|]. by constructor. Qed.

Lemma emits_only_execSync_with (P : Event → Prop) (stdio : StdioOption) (E : Env) (c : Cmd) :
  P (Exec c) → emits_only P (execSync_with stdio E c).
Proof.
  intros HP w. unfold execSync_with. pose proof (sh_trace E c (emit (Exec c) w)) as H.
  exists [Exec c]. destruct (sh E c (emit (Exec c) w)) as [[out|] w1]; simpl in *;
    (split; [done|by constructor]).
Qed.

Lemma emits_only_execSync (P : Event → Prop) (E : Env) (c : Cmd) :
  P (Exec c) → emits_only P (execSync E c).
Proof. apply emits_only_execSync_with. Qed.

Lemma emits_only_chdir (P : Event → Prop) (dir : string) :
  P (Chdir dir) → emits_only P (chdir dir).
Proof.
  intros HP w. exists [Chdir dir]. unfold chdir.
  case_bool_decide; (split; [done|by constructor]).
Qed.

Lemma emits_only_existsSync (P : Event → Prop) (dir : string) :
  emits_only P (existsSync dir).
Proof. intros w. exists []. by rewrite app_nil_r. Qed.

Create HintDb events discriminated.
#[local] Hint Resolve emits_only_bind emits_only_try_catch emits_only_ret emits_only_throw
  emits_only_log emits_only_execSync emits_only_execSync_with emits_only_chdir
  emits_only_existsSync : events.
#[local] Hint Extern 1 (worker_event _) => exact I : events.
#[local] Hint Extern 1 (not_poll _) => exact I : events.

Lemma worker_event_run (E : Env) (c : Cmd) : emits_only worker_event (run E c).
Proof. unfold run. eauto 10 with events. Qed.

#[local] Hint Resolve worker_event_run : events.

Lemma worker_event_prepare (E : Env) (repo branch : string) :
  emits_only worker_event (prepare_local_repo E repo branch).
Proof.
  unfold prepare_local_repo.
  apply emits_only_bind; [eauto with events|intros _].
  apply emits_only_bind; [eauto with events|intros present].
  apply emits_only_bind; [destruct present; eauto with events|intros _].
  eauto 20 with events.
Qed.

Lemma worker_event_execute (E : Env) (branch : string) (commits : list string) :
  emits_only worker_event (execute_cherry_picks E branch commits).
Proof.
  induction commits as [|sha rest IH]; simpl; [eauto with events|].
  apply emits_only_bind; [eauto 10 with events|].
  intros [|]; eauto 10 with events.
Qed.

#[local] Hint Resolve worker_event_prepare worker_event_execute : events.

(** [processJob] logs, runs commands and changes directory, nothing else:
    it sends no request and calls nothing of the job store. *)
Lemma worker_event_processJob (E : Env) (id : string) (params : JobParams) :
  emits_only worker_event (processJob E id params).
Proof.
  unfold processJob.
  do 2 (apply emits_only_bind; [eauto with events|intros _]).
  apply emits_only_bind; [eauto with events|intros all_prs].
  case_bool_decide; eauto 20 with events.
Qed.

Lemma worker_event_posts (t : list Event) : Forall worker_event t → posts t = [].
Proof. induction 1 as [|[] t He _ IH]; try done; by destruct He. Qed.

Lemma worker_event_not_poll (e : Event) : worker_event e → not_poll e.
Proof. by destruct e. Qed.

Lemma not_poll_polls (t : list Event) : Forall not_poll t → polls t = 0.
Proof. unfold polls. induction 1 as [|[] t He _ IH]; try done; by destruct He. Qed.

Lemma posts_app (t1 t2 : list Event) : posts (t1 ++ t2) = posts t1 ++ posts t2.
Proof. apply omap_app. Qed.

Lemma polls_app (t1 t2 : list Event) : polls (t1 ++ t2) = polls t1 + polls t2.
Proof. unfold polls. by rewrite omap_app, length_app. Qed.

(** ** A query that fails *)

Lemma checkExecSyncError_piped (c : Cmd) (s : string) :
  checkExecSyncError c (Some s)
  = "Command failed: " +:+ render c +:+ (if truthy s then newline +:+ s else "").
Proof.
  unfold checkExecSyncError. destruct (truthy s); [done|].
  by rewrite string_app_nil_r.
Qed.

Lemma processJob_query_failed (E : Env) (id : string) (params : JobParams) (w : World) :
  merged_prs E (repository (jp_params params)) (prFilterQuery (jp_params params)) = None →
  processJob E id params w =
  (Thrown (checkExecSyncError
             (gh_pr_list (repository (jp_params params)) (prFilterQuery (jp_params params))
                PR_LIMIT)
             (Some (stderr_of E (gh_pr_list (repository (jp_params params))
                                   (prFilterQuery (jp_params params)) PR_LIMIT)))),
   emits [Log ("[Worker] Processing job " +:+ id +:+ " for " +:+ repository (jp_params params));
          Log "[Worker] Fetching PRs...";
          Exec (gh_pr_list (repository (jp_params params))
                  (prFilterQuery (jp_params params)) PR_LIMIT)] w).
Proof.
  intros Hprs. unfold processJob. rewrite bind_eq. unfold log at 1.
  rewrite bind_eq. unfold log at 1. rewrite bind_eq, execSync_gh, Hprs.
  by rewrite !emit_emits, !emits_emits.
Qed.

(** X1.  When the query for the merged pull requests fails, the turn of
    the loop marks the job [failed] with a message that holds the command
    line of the query, followed on a new line by what [gh] wrote to the
    standard error if it wrote anything; the query is the only command
    run, and no clone, working directory or remote is touched. *)
Theorem X1_failed_query_fails_job_before_any_git (E : Env) (w : World) (j : Job)
    (q' : list Job) :
  claim (queue w) = Some (j, q') → NoDup (job_id <$> queue w) →
  merged_prs E (repository (job_params j)) (prFilterQuery (job_params j)) = None →
  let query := gh_pr_list (repository (job_params j)) (prFilterQuery (job_params j)) PR_LIMIT in
  ∃ w' t,
    main_iteration E w = (Returned (), w') ∧
    find_job (job_id j) (queue w') =
      Some (set_job_state failed
              (Some ("Command failed: " +:+ render query +:+
                     (if truthy (stderr_of E query) then newline +:+ stderr_of E query
                      else ""))) j) ∧
    disk w' = disk w ∧ cwd w' = cwd w ∧ github w' = github w ∧
    trace w' = trace w ++ t ∧
    commands t = [query].
Proof.
  intros Hc Hnd Hprs query.
  pose proof (processJob_query_failed E (job_id j) (mkJobParams (job_params j) (job_id j))
                (set_queue q' (emit GetNextJob w)) Hprs) as Hp.
  destruct (main_iteration_thrown E w _ j q' _ Hc Hnd Hp)
    as (w'' & t & Hrun & Hfind & Hd & Hcwd & Hg & Ht & Hcmd).
  exists w'', ([GetNextJob;
                Log ("[Worker] Processing job " +:+ job_id j +:+ " for "
                     +:+ repository (job_params j));
                Log "[Worker] Fetching PRs...";
                Exec query] ++ t).
  split_and!; try done.
  - by rewrite <- checkExecSyncError_piped.
  - rewrite Ht. simpl. by rewrite <- !app_assoc.
  - rewrite commands_app, Hcmd. done.
Qed.

(** The scenario with a host that refuses the query. *)
Lemma X1_witness :
  let E := failing_env "HTTP 401: Bad credentials" in
  let w := submitted E in
  let j := mkJob "job-0" demo_params running None in
  let query := gh_pr_list "org/app" "label:backport" PR_LIMIT in
  claim (queue w) = Some (j, [j]) ∧
  NoDup (job_id <$> queue w) ∧
  merged_prs E (repository (job_params j)) (prFilterQuery (job_params j)) = None ∧
  job_error <$> find_job "job-0" (queue (main_iteration E w).2)
    = Some (Some ("Command failed: " +:+ render query +:+ newline +:+
                  "HTTP 401: Bad credentials")) ∧
  ∃ w' t,
    main_iteration E w = (Returned (), w') ∧
    find_job (job_id j) (queue w') =
      Some (set_job_state failed
              (Some ("Command failed: " +:+ render query +:+
                     (if truthy (stderr_of E query) then newline +:+ stderr_of E query
                      else ""))) j) ∧
    disk w' = disk w ∧ cwd w' = cwd w ∧ github w' = github w ∧
    trace w' = trace w ++ t ∧
    commands t = [query].
Proof.
  intros E w j query.
  assert (claim (queue w) = Some (j, [j])) as Hc by reflexivity.
  assert (NoDup (job_id <$> queue w)) as Hnd by (vm_compute; apply NoDup_singleton).
  assert (merged_prs E (repository (job_params j)) (prFilterQuery (job_params j)) = None)
    as Hprs by reflexivity.
  split; [exact Hc|]. split; [exact Hnd|]. split; [exact Hprs|].
  split; [vm_compute; reflexivity|].
  exact (X1_failed_query_fails_job_before_any_git E w j [j] Hc Hnd Hprs).
Defined.

(** ** The remote *)

Lemma keeps_github_bind {A B} (m : M A) (k : A → M B) :
  keeps_github m → (∀ a, keeps_github (k a)) → keeps_github (m ≫= k).
Proof.
  intros Hm Hk w. rewrite bind_eq. specialize (Hm w).
  destruct (m w) as [[a|e] w1]; simpl in *; [|done]. by rewrite Hk.
Qed.

Lemma keeps_github_try_catch {A} (body : M A) (handler : string → M A) :
  keeps_github body → (∀ e, keeps_github (handler e)) → keeps_github (try_catch body handler).
Proof.
  intros Hm Hk w. unfold try_catch. specialize (Hm w).
  destruct (body w) as [[a|e] w1]; simpl in *; [done|]. by rewrite Hk.
Qed.

Lemma keeps_github_ret {A} (a : A) : keeps_github (mret a).
Proof. by intros w. Qed.

Lemma keeps_github_log (line : string) : keeps_github (log line).
Proof. by intros w. Qed.

Lemma keeps_github_chdir (dir : string) : keeps_github (chdir dir).
Proof. intros w. unfold chdir. by case_bool_decide. Qed.

Lemma keeps_github_existsSync (dir : string) : keeps_github (existsSync dir).
Proof. by intros w. Qed.

(** Every command but [git push] leaves the remotes alone. *)
Lemma keeps_github_execSync_with (stdio : StdioOption) (E : Env) (c : Cmd) :
  (∀ b, c ≠ git_push b) → keeps_github (execSync_with stdio E c).
Proof.
  intros Hc w. unfold execSync_with.
  assert (github (sh E c (emit (Exec c) w)).2 = github w) as H.
  { destruct c; simpl; repeat case_match; simplify_eq/=; try done. by destruct (Hc branch). }
  destruct (sh E c (emit (Exec c) w)) as [[out|] w1]; simpl in *; done.
Qed.

Lemma keeps_github_execSync (E : Env) (c : Cmd) :
  (∀ b, c ≠ git_push b) → keeps_github (execSync E c).
Proof. apply keeps_github_execSync_with. Qed.

Create HintDb remote discriminated.
#[local] Hint Resolve keeps_github_bind keeps_github_try_catch keeps_github_ret
  keeps_github_log keeps_github_chdir keeps_github_existsSync : remote.

Lemma keeps_github_run (E : Env) (c : Cmd) :
  (∀ b, c ≠ git_push b) → keeps_github (run E c).
Proof. intros Hc. unfold run. eauto 10 using keeps_github_execSync_with with remote. Qed.

Lemma keeps_github_prepare (E : Env) (repo branch : string) :
  keeps_github (prepare_local_repo E repo branch).
Proof.
  unfold prepare_local_repo.
  apply keeps_github_bind; [eauto with remote|intros _].
  apply keeps_github_bind; [eauto with remote|intros present].
  apply keeps_github_bind.
  { destruct present; [eauto with remote|by apply keeps_github_run]. }
  intros _. apply keeps_github_bind; [eauto with remote|intros _].
  repeat (apply keeps_github_bind; [by apply keeps_github_run|intros _]).
  by apply keeps_github_run.
Qed.

Lemma keeps_github_execute (E : Env) (branch : string) (commits : list string) :
  keeps_github (execute_cherry_picks E branch commits).
Proof.
  induction commits as [|sha rest IH]; simpl; [eauto with remote|].
  apply keeps_github_bind.
  - apply keeps_github_try_catch; [|eauto with remote].
    apply keeps_github_bind; [by apply keeps_github_execSync_with|eauto with remote].
  - intros [|]; [done|].
    apply keeps_github_bind; [eauto with remote|intros _].
    apply keeps_github_bind; [by apply keeps_github_run|done].
Qed.

(** X2.  A job that fails, at whatever stage, leaves every remote as it
    was: [processJob] changes a remote only by the [git push] that is its
    last command, and only when that push is accepted. *)
Theorem X2_failed_job_leaves_remotes (E : Env) (id : string) (params : JobParams)
    (w w' : World) (e : string) :
  processJob E id params w = (Thrown e, w') → github w' = github w.
Proof.
  unfold processJob. rewrite bind_eq. unfold log at 1. rewrite bind_eq. unfold log at 1.
  rewrite bind_eq.
  pose proof (keeps_github_execSync E
                (gh_pr_list (repository (jp_params params)) (prFilterQuery (jp_params params))
                   PR_LIMIT) ltac:(done)
                (emit (Log "[Worker] Fetching PRs...")
                   (emit (Log ("[Worker] Processing job " +:+ id +:+ " for " +:+
                               repository (jp_params params))) w))) as Hgh.
  destruct (execSync E _ _) as [[all_prs|e0] w0]; simpl in Hgh; [|by intros [= _ <-]].
  case_bool_decide; [done|].
  rewrite bind_eq.
  pose proof (keeps_github_prepare E (repository (jp_params params))
                (targetBranch (jp_params params)) w0) as Hprep.
  destruct (prepare_local_repo E _ _ w0) as [[[]|e1] wp]; simpl in Hprep;
    [|intros [= _ <-]; congruence].
  rewrite bind_eq. unfold log at 1. rewrite bind_eq.
  pose proof (keeps_github_execute E (targetBranch (jp_params params))
                (commitsToPick all_prs)
                (emit (Log ("[Worker] Found " +:+ pretty (length (commitsToPick all_prs))
                            +:+ " commits to pick...")) wp)) as Hloop.
  destruct (execute_cherry_picks E _ _ _) as [[[]|e2] wl]; simpl in Hloop;
    [|intros [= _ <-]; congruence].
  rewrite bind_eq. unfold log at 1. rewrite bind_eq, run_git_push. simpl disk. simpl cwd.
  simpl github.
  destruct (disk wl !! cwd wl) as [r|]; [|intros [= _ <-]; simpl; congruence].
  destruct (branches r !! targetBranch (jp_params params)) as [l|];
    [|intros [= _ <-]; simpl; congruence].
  destruct (github wl !! origin r) as [bs|]; [|intros [= _ <-]; simpl; congruence].
  case_bool_decide; [done|intros [= _ <-]; simpl; congruence].
Qed.

(** The scenario with the conflicting commit: the first commit was
    replayed in the clone, the remote does not have it. *)
Lemma X2_witness :
  let E := scenario_env demo_prs ["cA"] in
  let p := mkJobParams demo_params "job-0" in
  let w' := (processJob E "job-0" p demo_clone).2 in
  processJob E "job-0" p demo_clone = (Thrown "Command failed: git cherry-pick cA", w') ∧
  github w' = github demo_clone.
Proof.
  intros E p w'.
  assert (processJob E "job-0" p demo_clone
          = (Thrown "Command failed: git cherry-pick cA", w')) as Hp
    by (vm_compute; reflexivity).
  split; [exact Hp|].
  exact (X2_failed_job_leaves_remotes E "job-0" p demo_clone w' _ Hp).
Defined.

(** ** The loop as a whole *)

Lemma not_poll_processJob (E : Env) (id : string) (params : JobParams) :
  emits_only not_poll (processJob E id params).
Proof.
  apply (emits_only_mono worker_event); [apply worker_event_not_poll|].
  apply worker_event_processJob.
Qed.

Lemma not_poll_completeJob (id : string) : emits_only not_poll (completeJob id).
Proof.
  intros w. exists [CompleteJob id]. unfold completeJob.
  destruct (finish _ _ _ _); (split; [done|by repeat constructor]).
Qed.

Lemma not_poll_failJob (id detail : string) : emits_only not_poll (failJob id detail).
Proof.
  intros w. exists [FailJob id detail]. unfold failJob.
  destruct (finish _ _ _ _); (split; [done|by repeat constructor]).
Qed.

Lemma not_poll_sendWebhook (params : JobParams) (s : JobState) (error : option string) :
  emits_only not_poll (sendWebhook params s error).
Proof.
  intros w. unfold sendWebhook. destruct (callbackUrl (jp_params params)) as [url|].
  - destruct (truthy url).
    + eexists [_; _]. rewrite bind_eq. unfold log, axios_post. simpl.
      rewrite <- app_assoc. split; [reflexivity|]. by repeat constructor.
    + exists []. by rewrite app_nil_r.
  - exists []. by rewrite app_nil_r.
Qed.

(** A turn of the loop never throws, and calls [getNextJob] once. *)
Lemma main_iteration_polls_once (E : Env) (w : World) :
  ∃ w' t, main_iteration E w = (Returned (), w') ∧ trace w' = trace w ++ t ∧ polls t = 1.
Proof.
  unfold main_iteration. unfold try_catch at 1. rewrite bind_eq.
  assert (∃ job w1, getNextJob w = (Returned job, w1) ∧ trace w1 = trace w ++ [GetNextJob])
    as (job & w1 & -> & Hw1).
  { unfold getNextJob. destruct (claim (queue w)) as [[j q']|]; by eexists _, _. }
  match goal with |- context [let (_, _) := ?m w1 in _] =>
    assert (emits_only not_poll m) as Hk; [|destruct (Hk w1) as (t & Ht & HP);
                                            destruct (m w1) as [[[]|e] w2]]
  end.
  { destruct job as [job|]; [|apply emits_only_ret]. cbv zeta.
    apply emits_only_try_catch.
    - apply emits_only_bind; [apply not_poll_processJob|intros _].
      apply emits_only_bind; [apply not_poll_completeJob|intros _].
      apply not_poll_sendWebhook.
    - intros e. apply emits_only_bind; [by apply emits_only_log|intros _].
      apply emits_only_bind; [destruct (includes _ _); apply emits_only_ret|intros _].
      apply emits_only_bind; [apply not_poll_failJob|intros _].
      apply not_poll_sendWebhook. }
  all: simpl in Ht; exists w2, (GetNextJob :: t); (split; [done|]);
    rewrite Ht, Hw1, <- app_assoc; (split; [done|]);
    change (GetNextJob :: t) with ([GetNextJob] ++ t);
    by rewrite polls_app, (not_poll_polls t HP).
Qed.

(** X9.  No exception escapes the loop of [main]: whatever the world,
    [n] turns return, and they call [getNextJob] [n] times, once a turn,
    however many commands the jobs run in between. *)
Theorem X9_loop_never_throws_and_polls_once_a_turn (E : Env) (n : nat) (w : World) :
  ∃ w' t, main_loop E n w = (Returned (), w') ∧ trace w' = trace w ++ t ∧ polls t = n.
Proof.
  revert w. induction n as [|n IH]; intros w; simpl.
  - exists w, []. by rewrite app_nil_r.
  - rewrite bind_eq. destruct (main_iteration_polls_once E w) as (w1 & t1 & -> & Ht1 & Hp1).
    destruct (IH w1) as (w2 & t2 & -> & Ht2 & Hp2).
    exists w2, (t1 ++ t2). rewrite Ht2, Ht1, app_assoc, polls_app, Hp1, Hp2. done.
Qed.

(** ** The notification of a turn *)

Lemma sendWebhook_posts (params : JobParams) (s : JobState) (error : option string)
    (w : World) :
  ∃ t, sendWebhook params s error w = (Returned (), emits t w) ∧
       posts t =
         match callbackUrl (jp_params params) with
         | Some url =>
             if truthy url
             then [(url, mkPayload (jp_jobId params) s (repository (jp_params params))
                           (or_null error))]
             else []
         | None => []
         end.
Proof.
  unfold sendWebhook. destruct (callbackUrl (jp_params params)) as [url|].
  - destruct (truthy url).
    + rewrite bind_eq. unfold log, axios_post. rewrite !emit_emits, emits_emits.
      by eexists.
    + exists []. by rewrite emits_nil.
  - exists []. by rewrite emits_nil.
Qed.

(** X8.  A turn of the loop that takes a job sends one request to the
    callback URL of the job when it has a non-empty one, and none
    otherwise; the request carries the identifier and the repository of
    the job and the very state and error text that the store then holds
    for it (an empty text sent as null). *)
Theorem X8_one_webhook_reporting_the_stored_state (E : Env) (w : World) (j : Job)
    (q' : list Job) :
  claim (queue w) = Some (j, q') → NoDup (job_id <$> queue w) →
  ∃ w' t j',
    main_iteration E w = (Returned (), w') ∧ trace w' = trace w ++ t ∧
    find_job (job_id j) (queue w') = Some j' ∧
    posts t =
      match callbackUrl (job_params j) with
      | Some url =>
          if truthy url
          then [(url, mkPayload (job_id j) (job_state j') (repository (job_params j))
                        (or_null (job_error j')))]
          else []
      | None => []
      end.
Proof.
  intros Hc Hnd.
  destruct (main_iteration_claimed E w j q' Hc Hnd)
    as (q'' & w2 & s & e & Hrun & Hq & Hfind & Hout).
  destruct (worker_event_processJob E (job_id j) (mkJobParams (job_params j) (job_id j))
              (set_queue q' (emit GetNextJob w))) as (tp & Htp & HPp).
  apply worker_event_posts in HPp.
  destruct (sendWebhook_posts (mkJobParams (job_params j) (job_id j)) s e w2)
    as (ts & Hs & Hposts).
  rewrite Hs in Hrun. simpl in Hrun, Htp, Hposts.
  destruct (processJob E (job_id j) _ _) as [[[]|d] wp]; simpl in Htp.
  - destruct Hout as (-> & -> & ->).
    exists (emits ts (set_queue q'' (emit (CompleteJob (job_id j)) wp))),
      ([GetNextJob] ++ tp ++ [CompleteJob (job_id j)] ++ ts), (set_job_state completed None j).
    split_and!; [done| |done|].
    + simpl. rewrite Htp, <- !app_assoc. done.
    + rewrite !posts_app, HPp, Hposts. done.
  - destruct Hout as (-> & -> & ->).
    exists (emits ts (set_queue q'' (emit (FailJob (job_id j) d)
              (emit (Log ("[Worker] Job " +:+ job_id j +:+ " failed: " +:+ d)) wp)))),
      ([GetNextJob] ++ tp ++ [Log ("[Worker] Job " +:+ job_id j +:+ " failed: " +:+ d);
                              FailJob (job_id j) d] ++ ts),
      (set_job_state failed (Some d) j).
    split_and!; [done| |done|].
    + simpl. rewrite Htp, <- !app_assoc. done.
    + rewrite !posts_app, HPp, Hposts. done.
Qed.

(** The scenario with a callback URL and a conflicting commit: one
    request, reporting the job as failed with the message of the store. *)
Lemma X8_witness :
  let E := scenario_env demo_prs ["cA"] in
  let p := mkParams "org/app" "release/2.1" "label:backport" (Some "https://ci.example/hook") in
  let w := (enqueueCherryPickJob E p demo_clone).2 in
  let j := mkJob "job-0" p running None in
  claim (queue w) = Some (j, [j]) ∧
  NoDup (job_id <$> queue w) ∧
  posts (trace (main_iteration E w).2) =
    [("https://ci.example/hook",
      mkPayload "job-0" failed "org/app" (Some "Command failed: git cherry-pick cA"))] ∧
  ∃ w' t j',
    main_iteration E w = (Returned (), w') ∧ trace w' = trace w ++ t ∧
    find_job (job_id j) (queue w') = Some j' ∧
    posts t =
      match callbackUrl (job_params j) with
      | Some url =>
          if truthy url
          then [(url, mkPayload (job_id j) (job_state j') (repository (job_params j))
                        (or_null (job_error j')))]
          else []
      | None => []
      end.
Proof.
  intros E p w j.
  assert (claim (queue w) = Some (j, [j])) as Hc by reflexivity.
  assert (NoDup (job_id <$> queue w)) as Hnd by (vm_compute; apply NoDup_singleton).
  split_and!; [exact Hc|exact Hnd|vm_compute; reflexivity|].
  exact (X8_one_webhook_reporting_the_stored_state E w j [j] Hc Hnd).
Defined.

(** ** The loop, commit by commit *)

(** X4.  When the loop throws, it has stopped at one commit of its
    list: the commits before it were examined in order, that commit is
    the last one examined and the last one handed to [git cherry-pick],
    the error names it, and no commit after it was looked at. *)
Theorem X4_loop_stops_at_first_failing_commit (E : Env) (branch : string)
    (commits : list string) (w w' : World) (r : Repo) (e : string) :
  disk w !! cwd w = Some r →
  execute_cherry_picks E branch commits w = (Thrown e, w') →
  ∃ before sha after t,
    commits = before ++ sha :: after ∧ trace w' = trace w ++ t ∧
    examined t = before ++ [sha] ∧ last (picked t) = Some sha ∧
    e = "Command failed: git cherry-pick " +:+ sha.
Proof.
  revert w r. induction commits as [|sha0 rest IH]; intros w r Hr Hrun; [done|].
  rewrite (execute_cons E branch sha0 rest w r Hr) in Hrun.
  assert (∀ w0 : World,
            (Thrown ("Command failed: " +:+ render (git_cherry_pick sha0)) : Outcome (), w0)
            = (Thrown e, w') →
            trace w0 = trace w ++ [Exec (git_branch_contains sha0 branch);
                                   Log ("[Worker] Picking commit: " +:+ sha0);
                                   Log ("[Worker] > " +:+ render (git_cherry_pick sha0));
                                   Exec (git_cherry_pick sha0)] →
            ∃ before sha after t,
              sha0 :: rest = before ++ sha :: after ∧ trace w' = trace w ++ t ∧
              examined t = before ++ [sha] ∧ last (picked t) = Some sha ∧
              e = "Command failed: git cherry-pick " +:+ sha) as Hfail.
  { intros w0 [= <- <-] Ht. exists [], sha0, rest. eexists. split_and!; [done|exact Ht|done..]. }
  destruct (contains_grep r sha0 branch).
  - apply (IH _ r) in Hrun as (before & sha & after & t & -> & Ht & Hex & Hp & ->); [|done].
    exists (sha0 :: before), sha, after. eexists. split_and!; [done| | | |done].
    + rewrite Ht. simpl. by rewrite <- app_assoc.
    + rewrite examined_app, Hex. done.
    + rewrite picked_app. done.
  - cbv zeta in Hrun.
    destruct (CHERRY_PICK_HEAD r) as [c0|]; [by apply (Hfail _ Hrun)|].
    destruct (branches r !! HEAD r) as [l|]; [|by apply (Hfail _ Hrun)].
    destruct (pick E l sha0) as [c'|]; [|by apply (Hfail _ Hrun)].
    apply (IH _ (set_branch (HEAD r) (c' :: l) r)) in Hrun; [|simpl; apply lookup_insert_eq].
    destruct Hrun as (before & sha & after & t & -> & Ht & Hex & Hp & ->).
    exists (sha0 :: before), sha, after. eexists. split_and!; [done| | | |done].
    + rewrite Ht. simpl. by rewrite <- app_assoc.
    + rewrite examined_app, Hex. done.
    + rewrite picked_app, last_app, Hp. done.
Qed.

(** The loop of the scenario stops at the second commit. *)
Lemma X4_witness :
  let E := scenario_env demo_prs ["cA"] in
  let r := mkRepo "org/app"
             (<["main" := ["cC"; "cA"; "cB"; "base"]]> {[ "release/2.1" := ["base"] ]})
             "release/2.1" None in
  let w := mkWorld ∅ {[ "/ws" := r ]} "/ws" [] 0 [] in
  let w' := (execute_cherry_picks E "release/2.1" ["cB"; "cA"; "cC"] w).2 in
  disk w !! cwd w = Some r ∧
  execute_cherry_picks E "release/2.1" ["cB"; "cA"; "cC"] w =
    (Thrown "Command failed: git cherry-pick cA", w') ∧
  examined (trace w') = ["cB"; "cA"] ∧
  ∃ before sha after t,
    ["cB"; "cA"; "cC"] = before ++ sha :: after ∧ trace w' = trace w ++ t ∧
    examined t = before ++ [sha] ∧ last (picked t) = Some sha ∧
    "Command failed: git cherry-pick cA" = "Command failed: git cherry-pick " +:+ sha.
Proof.
  intros E r w w'.
  assert (disk w !! cwd w = Some r) as Hr by (vm_compute; reflexivity).
  assert (execute_cherry_picks E "release/2.1" ["cB"; "cA"; "cC"] w =
          (Thrown "Command failed: git cherry-pick cA", w')) as Hrun
    by (vm_compute; reflexivity).
  split_and!; [exact Hr|exact Hrun|vm_compute; reflexivity|].
  exact (X4_loop_stops_at_first_failing_commit E "release/2.1" ["cB"; "cA"; "cC"] w w' r _
           Hr Hrun).
Defined.

(** What the loop does to the world: it stays in its directory, touches
    no other clone and no remote, and only puts commits on top of the
    checked-out branch. *)
Lemma execute_appends (E : Env) (branch : string) (commits : list string) :
  ∀ (w : World) (r : Repo) (l : list string),
    disk w !! cwd w = Some r → branches r !! HEAD r = Some l →
    ∃ r' new t,
      disk (execute_cherry_picks E branch commits w).2 !! cwd w = Some r' ∧
      cwd (execute_cherry_picks E branch commits w).2 = cwd w ∧
      github (execute_cherry_picks E branch commits w).2 = github w ∧
      (∀ other, other ≠ cwd w →
         disk (execute_cherry_picks E branch commits w).2 !! other = disk w !! other) ∧
      HEAD r' = HEAD r ∧ origin r' = origin r ∧
      branches r' = <[HEAD r := new ++ l]> (branches r) ∧
      trace (execute_cherry_picks E branch commits w).2 = trace w ++ t ∧
      length new ≤ length (picked t) ∧
      ((execute_cherry_picks E branch commits w).1 = Returned () →
       length new = length (picked t) ∧ CHERRY_PICK_HEAD r' = CHERRY_PICK_HEAD r).
Proof.
  induction commits as [|sha rest IH]; intros w r l Hr Hl.
  { exists r, [], []. simpl. rewrite insert_id by done. rewrite app_nil_r.
    split_and!; done. }
  rewrite (execute_cons E branch sha rest w r Hr).
  destruct (contains_grep r sha branch).
  { edestruct (IH (emits [Exec (git_branch_contains sha branch);
             Log ("[Worker] Commit " +:+ sha +:+ " is already on " +:+ branch +:+ ". Skipping.")] w)
                  r l) as (r' & new & t & H1 & H2 & H3 & H4 & H5 & H6 & H7 & H8 & H9 & H10);
      [done..|].
    simpl in *. exists r', new,
      ([Exec (git_branch_contains sha branch);
        Log ("[Worker] Commit " +:+ sha +:+ " is already on " +:+ branch +:+ ". Skipping.")] ++ t).
    rewrite picked_app, H8, <- app_assoc. split_and!; done. }
  cbv zeta. rewrite Hl.
  destruct (CHERRY_PICK_HEAD r) as [c0|] eqn:Hcp;
    [|destruct (pick E l sha) as [c'|] eqn:Hp].
  - exists r, [], [Exec (git_branch_contains sha branch);
                   Log ("[Worker] Picking commit: " +:+ sha);
                   Log ("[Worker] > " +:+ render (git_cherry_pick sha));
                   Exec (git_cherry_pick sha)].
    simpl. rewrite insert_id by done. split_and!; try done. lia.
  - edestruct (IH (set_disk (<[cwd w := set_branch (HEAD r) (c' :: l) r]> (disk w))
              (emits [Exec (git_branch_contains sha branch);
                      Log ("[Worker] Picking commit: " +:+ sha);
                      Log ("[Worker] > " +:+ render (git_cherry_pick sha));
                      Exec (git_cherry_pick sha)] w))
                 (set_branch (HEAD r) (c' :: l) r) (c' :: l))
      as (r' & new & t & H1 & H2 & H3 & H4 & H5 & H6 & H7 & H8 & H9 & H10).
    { simpl. apply lookup_insert_eq. }
    { simpl. apply lookup_insert_eq. }
    simpl in *. exists r', (new ++ [c']),
      ([Exec (git_branch_contains sha branch);
        Log ("[Worker] Picking commit: " +:+ sha);
        Log ("[Worker] > " +:+ render (git_cherry_pick sha));
        Exec (git_cherry_pick sha)] ++ t).
    rewrite picked_app, !length_app, H8, H7, insert_insert_eq, <- !app_assoc. simpl.
    split_and!; try done.
    + intros other Hne. rewrite H4 by done. by rewrite lookup_insert_ne.
    + lia.
    + intros Hret. destruct (H10 Hret) as [Hlen Hcph]. split; [lia|congruence].
  - exists (set_CHERRY_PICK_HEAD (Some sha) r), [],
      [Exec (git_branch_contains sha branch);
       Log ("[Worker] Picking commit: " +:+ sha);
       Log ("[Worker] > " +:+ render (git_cherry_pick sha));
       Exec (git_cherry_pick sha)].
    simpl. rewrite lookup_insert_eq. rewrite (insert_id (branches r)) by done.
    split_and!; try done.
    + intros other Hne. by rewrite lookup_insert_ne.
    + lia.
Qed.

(** X5.  The loop never rewrites history: when it ends, by returning
    or by throwing, the checked-out branch is its old history with new
    commits on top, at most one for each commit handed to [git
    cherry-pick] and exactly one when the loop returned; every other
    branch of the clone, every other clone and every remote is as
    before. *)
Theorem X5_loop_only_appends_to_checked_out_branch (E : Env) (branch : string)
    (commits : list string) (w : World) (r : Repo) (l : list string) :
  disk w !! cwd w = Some r → branches r !! HEAD r = Some l →
  ∃ r' new t,
    disk (execute_cherry_picks E branch commits w).2 !! cwd w = Some r' ∧
    (∀ other, other ≠ cwd w →
       disk (execute_cherry_picks E branch commits w).2 !! other = disk w !! other) ∧
    github (execute_cherry_picks E branch commits w).2 = github w ∧
    HEAD r' = HEAD r ∧
    branches r' !! HEAD r = Some (new ++ l) ∧
    (∀ b, b ≠ HEAD r → branches r' !! b = branches r !! b) ∧
    trace (execute_cherry_picks E branch commits w).2 = trace w ++ t ∧
    length new ≤ length (picked t) ∧
    ((execute_cherry_picks E branch commits w).1 = Returned () →
     length new = length (picked t)).
Proof.
  intros Hr Hl.
  destruct (execute_appends E branch commits w r l Hr Hl)
    as (r' & new & t & H1 & H2 & H3 & H4 & H5 & H6 & H7 & H8 & H9 & H10).
  exists r', new, t. split_and!; try done.
  - rewrite H7. apply lookup_insert_eq.
  - intros b Hb. rewrite H7. by apply lookup_insert_ne.
  - intros Hret. by destruct (H10 Hret).
Qed.

(** In the scenario, one commit lands on the branch before the conflict. *)
Lemma X5_witness :
  let E := scenario_env demo_prs ["cA"] in
  let r := mkRepo "org/app"
             (<["main" := ["cC"; "cA"; "cB"; "base"]]> {[ "release/2.1" := ["base"] ]})
             "release/2.1" None in
  let w := mkWorld ∅ {[ "/ws" := r ]} "/ws" [] 0 [] in
  let w' := (execute_cherry_picks E "release/2.1" ["cB"; "cA"; "cC"] w).2 in
  disk w !! cwd w = Some r ∧ branches r !! HEAD r = Some ["base"] ∧
  (disk w' !! "/ws" ≫= λ r', branches r' !! "release/2.1") = Some ["cB'"; "base"] ∧
  ∃ r' new t,
    disk w' !! cwd w = Some r' ∧
    (∀ other, other ≠ cwd w → disk w' !! other = disk w !! other) ∧
    github w' = github w ∧
    HEAD r' = HEAD r ∧
    branches r' !! HEAD r = Some (new ++ ["base"]) ∧
    (∀ b, b ≠ HEAD r → branches r' !! b = branches r !! b) ∧
    trace w' = trace w ++ t ∧
    length new ≤ length (picked t) ∧
    ((execute_cherry_picks E "release/2.1" ["cB"; "cA"; "cC"] w).1 = Returned () →
     length new = length (picked t)).
Proof.
  intros E r w w'.
  assert (disk w !! cwd w = Some r) as Hr by (vm_compute; reflexivity).
  assert (branches r !! HEAD r = Some ["base"]) as Hl by (vm_compute; reflexivity).
  split_and!; [exact Hr|exact Hl|vm_compute; reflexivity|].
  exact (X5_loop_only_appends_to_checked_out_branch E "release/2.1" ["cB"; "cA"; "cC"]
           w r ["base"] Hr Hl).
Defined.

(** ** A job that goes through *)

(** X6.  A job that goes through with at least one changeset pushes a
    fast-forward: the remote target branch ends as its history from
    before the job with the replayed commits on top, equal to the local
    target branch; no other branch and no other remote changes, and the
    clone is left with no cherry-pick in progress. *)
Theorem X6_success_pushes_a_fast_forward (E : Env) (id : string) (params : JobParams)
    (w w1 : World) (prs : list PullRequest) :
  merged_prs E (repository (jp_params params)) (prFilterQuery (jp_params params)) = Some prs →
  take (N.to_nat PR_LIMIT) prs ≠ [] →
  processJob E id params w = (Returned (), w1) →
  ∃ r h new,
    disk w1 !! WORKSPACE (repository (jp_params params)) = Some r ∧
    CHERRY_PICK_HEAD r = None ∧
    remote_branch (github w) r (targetBranch (jp_params params)) = Some h ∧
    branches r !! targetBranch (jp_params params) = Some (new ++ h) ∧
    remote_branch (github w1) r (targetBranch (jp_params params)) = Some (new ++ h) ∧
    (∀ g b, g ≠ origin r ∨ b ≠ targetBranch (jp_params params) →
            (github w1 !! g ≫= λ bs, bs !! b) = (github w !! g ≫= λ bs, bs !! b)).
Proof.
  intros Hprs Hne. unfold processJob. intros H.
  inv_log H. inv_log H.
  apply bind_inv in H as (all_prs & w0' & Hgh & H).
  rewrite execSync_gh, Hprs in Hgh. injection Hgh as <- <-.
  rewrite bool_decide_eq_false_2 in H by (by intros ?%nil_length_inv).
  apply bind_inv in H as ([] & wp & Hprep & H).
  apply prepare_post in Hprep as (r & h & Hcwd & Hr & Hg & HH & Hcp & Hb & Hrem).
  simpl in Hg.
  inv_log H.
  apply bind_inv in H as ([] & wl & Hloop & H).
  destruct (execute_appends E (targetBranch (jp_params params))
              (commitsToPick (take (N.to_nat PR_LIMIT) prs))
              (emit (Log ("[Worker] Found " +:+
                          pretty (length (commitsToPick (take (N.to_nat PR_LIMIT) prs)))
                          +:+ " commits to pick...")) wp) r h)
    as (r' & new & t & H1 & H2 & H3 & H4 & H5 & H6 & H7 & H8 & H9 & H10);
    [done|by rewrite HH|].
  rewrite Hloop in H1, H2, H3, H10. simpl in H1, H2, H3, H10.
  destruct (H10 eq_refl) as [_ Hcp'].
  inv_log H.
  apply bind_inv in H as ([] & w' & Hpush & H). injection H as <-.
  rewrite run_git_push in Hpush. simpl in Hpush. rewrite H2, H1 in Hpush.
  assert (branches r' !! targetBranch (jp_params params) = Some (new ++ h)) as Hl.
  { rewrite H7, HH. apply lookup_insert_eq. }
  rewrite Hl in Hpush.
  destruct (github wl !! origin r') as [bs|] eqn:Hbs; [|done].
  case_bool_decide; [|done]. injection Hpush as <-. simpl.
  exists r', h, new. split_and!.
  - by rewrite <- Hcwd.
  - congruence.
  - simpl in Hrem. unfold remote_branch in *. by rewrite H6.
  - done.
  - unfold remote_branch. rewrite lookup_insert_eq. simpl. by rewrite lookup_insert_eq.
  - intros g b Hgb. rewrite H3, Hg.
    destruct (decide (g = origin r')) as [->|Hne'].
    + rewrite lookup_insert_eq. simpl. rewrite <- Hg, <- H3, Hbs. simpl.
      destruct Hgb as [?|Hb']; [done|]. by rewrite lookup_insert_ne.
    + by rewrite lookup_insert_ne.
Qed.

(** The scenario without a conflict: the three commits are on top of the
    remote branch. *)
Lemma X6_witness :
  let E := scenario_env demo_prs [] in
  let p := mkJobParams demo_params "job-0" in
  let w1 := (processJob E "job-0" p demo_clone).2 in
  merged_prs E "org/app" "label:backport" = Some demo_prs ∧
  take (N.to_nat PR_LIMIT) demo_prs ≠ [] ∧
  processJob E "job-0" p demo_clone = (Returned (), w1) ∧
  (github w1 !! "org/app" ≫= λ bs, bs !! "release/2.1") = Some ["cC'"; "cA'"; "cB'"; "base"] ∧
  ∃ r h new,
    disk w1 !! WORKSPACE (repository (jp_params p)) = Some r ∧
    CHERRY_PICK_HEAD r = None ∧
    remote_branch (github demo_clone) r (targetBranch (jp_params p)) = Some h ∧
    branches r !! targetBranch (jp_params p) = Some (new ++ h) ∧
    remote_branch (github w1) r (targetBranch (jp_params p)) = Some (new ++ h) ∧
    (∀ g b, g ≠ origin r ∨ b ≠ targetBranch (jp_params p) →
            (github w1 !! g ≫= λ bs, bs !! b) = (github demo_clone !! g ≫= λ bs, bs !! b)).
Proof.
  intros E p w1.
  assert (merged_prs E (repository (jp_params p)) (prFilterQuery (jp_params p))
          = Some demo_prs) as Hprs by reflexivity.
  assert (take (N.to_nat PR_LIMIT) demo_prs ≠ []) as Hne by (vm_compute; discriminate).
  assert (processJob E "job-0" p demo_clone = (Returned (), w1)) as Hrun
    by (vm_compute; reflexivity).
  split_and!; [exact Hprs|exact Hne|exact Hrun|vm_compute; reflexivity|].
  exact (X6_success_pushes_a_fast_forward E "job-0" p demo_clone w1 demo_prs Hprs Hne Hrun).
Defined.

(** ** One workspace per repository *)

Lemma stays_in_bind {A B} (d : string) (m : M A) (k : A → M B) :
  stays_in d m → (∀ a, stays_in d (k a)) → stays_in d (m ≫= k).
Proof.
  intros Hm Hk w Hw. rewrite bind_eq. destruct (Hm w Hw) as [Hc Hd].
  destruct (m w) as [[a|e] w1]; simpl in *; [|done].
  destruct (Hk a w1 Hc) as [Hc' Hd']. split; [done|].
  intros other Ho. by rewrite Hd', Hd.
Qed.

Lemma stays_in_try_catch {A} (d : string) (body : M A) (handler : string → M A) :
  stays_in d body → (∀ e, stays_in d (handler e)) → stays_in d (try_catch body handler).
Proof.
  intros Hm Hk w Hw. unfold try_catch. destruct (Hm w Hw) as [Hc Hd].
  destruct (body w) as [[a|e] w1]; simpl in *; [done|].
  destruct (Hk e w1 Hc) as [Hc' Hd']. split; [done|].
  intros other Ho. by rewrite Hd', Hd.
Qed.

Lemma stays_in_ret {A} (d : string) (a : A) : stays_in d (mret a).
Proof. by intros w Hw. Qed.

Lemma stays_in_log (d line : string) : stays_in d (log line).
Proof. by intros w Hw. Qed.

(** Every command but [git clone] works on the clone of the working
    directory. *)
Lemma stays_in_execSync_with (stdio : StdioOption) (E : Env) (d : string) (c : Cmd) :
  (∀ b r dir, c ≠ git_clone b r dir) → stays_in d (execSync_with stdio E c).
Proof.
  intros Hc w Hw. unfold execSync_with.
  assert (cwd (sh E c (emit (Exec c) w)).2 = d ∧
          ∀ other, other ≠ d → disk (sh E c (emit (Exec c) w)).2 !! other = disk w !! other)
    as H.
  { destruct c; simpl; repeat case_match; simplify_eq/=; split; try done;
      try (by intros other Ho; rewrite lookup_insert_ne).
    all: by edestruct Hc. }
  destruct (sh E c (emit (Exec c) w)) as [[out|] w1]; simpl in *; done.
Qed.

Create HintDb workspace discriminated.
#[local] Hint Resolve stays_in_bind stays_in_try_catch stays_in_ret stays_in_log : workspace.

Lemma stays_in_run (E : Env) (d : string) (c : Cmd) :
  (∀ b r dir, c ≠ git_clone b r dir) → stays_in d (run E c).
Proof. intros Hc. unfold run. eauto 10 using stays_in_execSync_with with workspace. Qed.

Lemma stays_in_execute (E : Env) (d branch : string) (commits : list string) :
  stays_in d (execute_cherry_picks E branch commits).
Proof.
  induction commits as [|sha rest IH]; simpl; [eauto with workspace|].
  apply stays_in_bind.
  - apply stays_in_try_catch; [|eauto with workspace].
    apply stays_in_bind; [by apply stays_in_execSync_with|eauto with workspace].
  - intros [|]; [done|].
    apply stays_in_bind; [eauto with workspace|intros _].
    apply stays_in_bind; [by apply stays_in_run|done].
Qed.

(** "2. Prepare Local Repo" changes no clone but the one of the
    repository, wherever it is started from, and ends in it when it
    returns. *)
Lemma prepare_elsewhere (E : Env) (repo branch : string) (w : World) (other : string) :
  other ≠ WORKSPACE repo →
  disk (prepare_local_repo E repo branch w).2 !! other = disk w !! other.
Proof.
  intros Ho. unfold prepare_local_repo.
  rewrite bind_eq. unfold log at 1.
  rewrite bind_eq. unfold existsSync at 1.
  rewrite bind_eq.
  set (w0 := emit _ w).
  match goal with |- context [let (_, _) := ?m w0 in _] => set (clone := m) end.
  assert (disk (clone w0).2 !! other = disk w !! other) as Hclone.
  { subst clone. case_bool_decide; [done|].
    rewrite run_git_clone. simpl. repeat case_match; simpl; try done.
    by rewrite lookup_insert_ne. }
  destruct (clone w0) as [[[]|e] w1]; simpl in *; [|done].
  rewrite bind_eq. unfold chdir at 1.
  case_bool_decide; [|done].
  match goal with |- disk (?m ?w2).2 !! _ = _ =>
    assert (stays_in (WORKSPACE repo) m) as Hrest end.
  { repeat (apply stays_in_bind; [by apply stays_in_run|intros _]).
    by apply stays_in_run. }
  destruct (Hrest (set_cwd (WORKSPACE repo) (emit (Chdir (WORKSPACE repo)) w1)) eq_refl)
    as [_ Hd].
  by rewrite Hd.
Qed.

(** X7.  A job changes no clone on the disk but the workspace of its own
    repository, whatever directory the worker is in when the job starts
    and however the job ends. *)
Theorem X7_job_touches_only_its_own_workspace (E : Env) (id : string) (params : JobParams)
    (w : World) (other : string) :
  other ≠ WORKSPACE (repository (jp_params params)) →
  disk (processJob E id params w).2 !! other = disk w !! other.
Proof.
  intros Ho. unfold processJob.
  rewrite bind_eq. unfold log at 1.
  rewrite bind_eq. unfold log at 1.
  rewrite bind_eq, execSync_gh.
  destruct (merged_prs E _ _) as [prs|]; simpl; [|done].
  case_bool_decide; [done|].
  rewrite bind_eq.
  set (w0 := emit _ (emit _ (emit _ w))).
  pose proof (prepare_elsewhere E (repository (jp_params params))
                (targetBranch (jp_params params)) w0 other Ho) as Hprep.
  destruct (prepare_local_repo E _ _ w0) as [[[]|e] wp] eqn:Hrun; simpl in *; [|done].
  apply prepare_post in Hrun as (r & h & Hcwd & _).
  match goal with |- disk (?m wp).2 !! _ = _ =>
    assert (stays_in (WORKSPACE (repository (jp_params params))) m) as Hrest end.
  { apply stays_in_bind; [eauto with workspace|intros _].
    apply stays_in_bind; [apply stays_in_execute|intros _].
    apply stays_in_bind; [eauto with workspace|intros _].
    apply stays_in_bind; [by apply stays_in_run|intros _].
    eauto with workspace. }
  destruct (Hrest wp Hcwd) as [_ Hd]. by rewrite Hd.
Qed.

(** The clone of another repository is where it was after a job with a
    conflict and after one without. *)
Lemma X7_witness :
  let p := mkJobParams demo_params "job-0" in
  let other := mkRepo "org/lib" {["main" := ["l1"]]} "main" None in
  let w := set_disk (<[WORKSPACE "org/lib" := other]> (disk demo_clone)) demo_clone in
  WORKSPACE "org/lib" ≠ WORKSPACE (repository (jp_params p)) ∧
  disk (processJob (scenario_env demo_prs ["cB"]) "job-0" p w).2 !! WORKSPACE "org/lib"
    = Some other ∧
  disk (processJob (scenario_env demo_prs []) "job-0" p w).2 !! WORKSPACE "org/lib"
    = Some other.
Proof.
  intros p other w.
  assert (WORKSPACE "org/lib" ≠ WORKSPACE (repository (jp_params p))) as Ho
    by (vm_compute; discriminate).
  split_and!; [exact Ho| |].
  - rewrite (X7_job_touches_only_its_own_workspace _ "job-0" p w _ Ho).
    vm_compute. reflexivity.
  - vm_compute. reflexivity.
Defined.

(** ** Preparing a clone that is already there *)

(** A command in the clone that exits with status zero. *)
Lemma run_returns (E : Env) (c : Cmd) (w : World) (r r' : Repo) :
  in_repo c → disk w !! cwd w = Some r → git_in_repo E (github w) c r = (true, r') →
  ∃ w', run E c w = (Returned (), w') ∧ cwd w' = cwd w ∧
        disk w' = <[cwd w := r']> (disk w) ∧ github w' = github w ∧
        trace w' = trace w ++ [Log ("[Worker] > " +:+ render c); Exec c].
Proof.
  intros Hc Hr Hg. rewrite (run_in_repo E c w r Hc Hr), Hg. by eexists.
Qed.

(** X3.  When the workspace holds a clone with no cherry-pick in
    progress, the preparation never clones again and never fails as long
    as the clone has the target branch and the remote has it too: it runs
    fetch, checkout, hard reset and pull, and leaves the clone on the
    target branch with exactly the history of the remote branch, so that
    commits that were only in the local branch are dropped.  The other
    branches of the clone stay as they were. *)
Theorem X3_preparation_resets_an_existing_clone (E : Env) (repo branch : string) (w : World)
    (r0 : Repo) (l0 h : list string) :
  disk w !! WORKSPACE repo = Some r0 → CHERRY_PICK_HEAD r0 = None →
  branches r0 !! branch = Some l0 → remote_branch (github w) r0 branch = Some h →
  ∃ w' t,
    prepare_local_repo E repo branch w = (Returned (), w') ∧
    trace w' = trace w ++ t ∧ commands t = prepare_commands branch ∧
    cwd w' = WORKSPACE repo ∧
    disk w' !! WORKSPACE repo
      = Some (mkRepo (origin r0) (<[branch := h]> (branches r0)) branch None).
Proof.
  intros Hr Hcp Hb Hrem. unfold prepare_local_repo.
  rewrite bind_eq. unfold log at 1. rewrite bind_eq. unfold existsSync at 1.
  simpl disk. rewrite bool_decide_eq_true_2 by (by rewrite Hr).
  rewrite bind_eq. unfold mret at 1, M_ret at 1.
  rewrite bind_eq. unfold chdir at 1. simpl disk.
  rewrite bool_decide_eq_true_2 by (by rewrite Hr).
  set (w0 := set_cwd _ _).
  assert (origin r0 ∈ dom (github w)) as Ho.
  { apply elem_of_dom. unfold remote_branch in Hrem. by destruct (github w !! origin r0). }
  apply elem_of_dom in Ho.
  rewrite bind_eq.
  destruct (run_returns E git_fetch_all w0 r0 r0) as (w1 & -> & Hc1 & Hd1 & Hg1 & Ht1);
    [done|done|by simpl; rewrite bool_decide_eq_true_2|].
  rewrite bind_eq.
  destruct (run_returns E (git_checkout branch) w1 r0 (set_HEAD branch r0))
    as (w2 & -> & Hc2 & Hd2 & Hg2 & Ht2);
    [done|by rewrite Hd1, Hc1; simpl; rewrite lookup_insert_eq
     |by simpl; rewrite bool_decide_eq_true_2 by (by rewrite Hb)|].
  rewrite bind_eq.
  set (r2 := mkRepo (origin r0) (<[branch := h]> (branches r0)) branch None).
  destruct (run_returns E (git_reset_hard branch) w2 (set_HEAD branch r0) r2)
    as (w3 & -> & Hc3 & Hd3 & Hg3 & Ht3);
    [done|by rewrite Hd2, Hc2; rewrite lookup_insert_eq| |].
  { simpl. rewrite Hg2, Hg1.
    change (remote_branch (github w0) (set_HEAD branch r0) branch)
      with (remote_branch (github w) r0 branch). by rewrite Hrem. }
  destruct (run_returns E (git_pull branch) w3 r2 r2)
    as (w4 & -> & Hc4 & Hd4 & Hg4 & Ht4);
    [done|by rewrite Hd3, Hc3; rewrite lookup_insert_eq| |].
  { simpl. rewrite Hg3, Hg2, Hg1.
    change (remote_branch (github w0) r2 branch) with (remote_branch (github w) r0 branch).
    rewrite Hrem, lookup_insert_eq, bool_decide_eq_true_2 by done.
    unfold set_branch, r2. simpl. by rewrite insert_insert_eq. }
  eexists w4, _. split; [reflexivity|]. split_and!.
  - rewrite Ht4, Ht3, Ht2, Ht1. simpl. rewrite <- !app_assoc. reflexivity.
  - reflexivity.
  - by rewrite Hc4, Hc3, Hc2, Hc1.
  - rewrite Hd4, Hc3, Hc2, Hc1. simpl. by rewrite lookup_insert_eq.
Qed.

(** A clone whose target branch has a commit of its own is brought back
    to the remote branch. *)
Lemma X3_witness :
  let r0 := mkRepo "org/app" {[ "release/2.1" := ["local"; "base"] ]} "release/2.1" None in
  let w := set_disk {[ WORKSPACE "org/app" := r0 ]} demo_world in
  disk w !! WORKSPACE "org/app" = Some r0 ∧ CHERRY_PICK_HEAD r0 = None ∧
  branches r0 !! "release/2.1" = Some ["local"; "base"] ∧
  remote_branch (github w) r0 "release/2.1" = Some ["base"] ∧
  ∃ w' t,
    prepare_local_repo (scenario_env demo_prs []) "org/app" "release/2.1" w
      = (Returned (), w') ∧
    trace w' = trace w ++ t ∧ commands t = prepare_commands "release/2.1" ∧
    cwd w' = WORKSPACE "org/app" ∧
    disk w' !! WORKSPACE "org/app"
      = Some (mkRepo (origin r0) (<["release/2.1" := ["base"]]> (branches r0))
                "release/2.1" None).
Proof.
  intros r0 w.
  assert (disk w !! WORKSPACE "org/app" = Some r0) as Hr by (vm_compute; reflexivity).
  assert (CHERRY_PICK_HEAD r0 = None) as Hcp by reflexivity.
  assert (branches r0 !! "release/2.1" = Some ["local"; "base"]) as Hb
    by (vm_compute; reflexivity).
  assert (remote_branch (github w) r0 "release/2.1" = Some ["base"]) as Hrem
    by (vm_compute; reflexivity).
  split_and!; [exact Hr|exact Hcp|exact Hb|exact Hrem|].
  exact (X3_preparation_resets_an_existing_clone (scenario_env demo_prs []) "org/app"
           "release/2.1" w r0 ["local"; "base"] ["base"] Hr Hcp Hb Hrem).
Defined.

(** ** The tool handler *)

(** X10.  A [cherry-pick] tool call is accepted exactly when its
    arguments are well formed.  An accepted call answers with the
    identifier under which the job has been stored, the callback address
    kept as given; a rejected call throws having drawn no identifier and
    stored nothing, also when the only fault is a callback address that
    is no URL. *)
Theorem X10_tool_call_accepted_iff_well_formed (E : Env) (args : ToolArguments) (w : World) :
  if well_formed E args
  then ∃ r b q w',
         arg_repository args = Some r ∧ arg_targetBranch args = Some b ∧
         arg_prFilterQuery args = Some q ∧
         callTool E "cherry-pick" args w
           = (Returned ("Cherry-pick job enqueued with ID: " +:+ uuid E (drawn w)), w') ∧
         drawn w' = S (drawn w) ∧
         queue w' = queue w ++ [mkJob (uuid E (drawn w))
                                  (mkParams r b q (arg_callbackUrl args)) queued None]
  else ∃ e w',
         callTool E "cherry-pick" args w = (Thrown e, w') ∧
         drawn w' = drawn w ∧ queue w' = queue w.
Proof.
  destruct args as [r b q u]. unfold well_formed. simpl.
  change (callTool E "cherry-pick" (mkArgs r b q u) w) with
    ((CherryPickParams_parse E (mkArgs r b q u) ≫= λ p,
      enqueueCherryPickJob E p ≫= λ result,
      log ("Enqueued cherry-pick job: " +:+ jobId result);;
      mret ("Cherry-pick job enqueued with ID: " +:+ jobId result)) w).
  rewrite bind_eq. unfold CherryPickParams_parse. simpl.
  destruct r as [r|]; simpl; [|by eexists _, _].
  destruct b as [b|]; simpl; [|rewrite andb_false_r; by eexists _, _].
  destruct q as [q|]; simpl; [|rewrite andb_false_r; by eexists _, _].
  assert (∀ p, repository p = r → targetBranch p = b → prFilterQuery p = q →
            if truthy r && truthy b && truthy q
            then ∃ w', (enqueueCherryPickJob E p ≫= λ result,
                        log ("Enqueued cherry-pick job: " +:+ jobId result);;
                        mret ("Cherry-pick job enqueued with ID: " +:+ jobId result)) w
                       = (Returned ("Cherry-pick job enqueued with ID: " +:+ uuid E (drawn w)),
                          w') ∧
                       drawn w' = S (drawn w) ∧
                       queue w' = queue w ++ [mkJob (uuid E (drawn w)) p queued None]
            else ∃ e w', (enqueueCherryPickJob E p ≫= λ result,
                          log ("Enqueued cherry-pick job: " +:+ jobId result);;
                          mret ("Cherry-pick job enqueued with ID: " +:+ jobId result)) w
                         = (Thrown e, w') ∧
                         drawn w' = drawn w ∧ queue w' = queue w) as Henq.
  { intros p <- <- <-. rewrite bind_eq. unfold enqueueCherryPickJob. rewrite bind_eq. simpl.
    destruct (truthy (repository p)), (truthy (targetBranch p)), (truthy (prFilterQuery p));
      simpl; try (by eexists _, _).
    rewrite bind_eq. unfold log at 1. unfold mret, M_ret. by eexists _. }
  destruct u as [u|]; simpl.
  - destruct (is_url E u); simpl.
    + rewrite andb_true_r. unfold mret at 1, M_ret at 1.
      specialize (Henq (mkParams r b q (Some u)) eq_refl eq_refl eq_refl).
      destruct (truthy r && truthy b && truthy q); [|done].
      destruct Henq as (w' & ? & ? & ?). by exists r, b, q, w'.
    + rewrite andb_false_r. by eexists _, _.
  - rewrite andb_true_r. unfold mret at 1, M_ret at 1.
    specialize (Henq (mkParams r b q None) eq_refl eq_refl eq_refl).
    destruct (truthy r && truthy b && truthy q); [|done].
    destruct Henq as (w' & ? & ? & ?). by exists r, b, q, w'.
Qed.

(** What a [cherry-pick] call throws comes from the validation. *)
Lemma cherry_pick_thrown (E : Env) (args : ToolArguments) (w w' : World) (e : string) :
  callTool E "cherry-pick" args w = (Thrown e, w') →
  e = "ZodError" ∨
  e = "Missing required parameters: repository, targetBranch, prFilterQuery".
Proof.
  destruct args as [r b q u].
  change (callTool E "cherry-pick" (mkArgs r b q u) w) with
    ((CherryPickParams_parse E (mkArgs r b q u) ≫= λ p,
      enqueueCherryPickJob E p ≫= λ result,
      log ("Enqueued cherry-pick job: " +:+ jobId result);;
      mret ("Cherry-pick job enqueued with ID: " +:+ jobId result)) w).
  rewrite bind_eq.
  destruct (CherryPickParams_parse E (mkArgs r b q u) w) as [[p|e0] w0] eqn:Hp.
  - intros H. right. revert H. rewrite bind_eq. unfold enqueueCherryPickJob.
    rewrite bind_eq. simpl.
    destruct (truthy (repository p)), (truthy (targetBranch p)), (truthy (prFilterQuery p));
      simpl; try congruence.
    rewrite bind_eq. unfold log at 1. unfold mret, M_ret. congruence.
  - intros [= -> ->]. left. revert Hp. unfold CherryPickParams_parse. simpl.
    repeat case_match; unfold mret, M_ret, throw; congruence.
Qed.

(** X11.  Of the tools that the server lists, [health] is the one that a
    call does not reach: it is answered as an unknown tool, with nothing
    done, and no other listed tool is. *)
Theorem X11_listed_health_tool_is_not_served (E : Env) (name : string)
    (args : ToolArguments) (w : World) :
  name ∈ tool_name <$> listTools →
  callTool E name args w = (Thrown ("Unknown tool: " +:+ name), w) ↔ name = "health".
Proof.
  intros Hin. simpl in Hin.
  apply elem_of_cons in Hin as [->|Hin]; [|apply elem_of_cons in Hin as [->|Hin]];
    [| |apply list_elem_of_singleton in Hin as ->].
  - split; [|done]. intros H. by apply cherry_pick_thrown in H as [?|?].
  - done.
  - split; [|done]. unfold callTool. simpl. unfold mret, M_ret. done.
Qed.

Lemma X11_witness :
  "health" ∈ tool_name <$> listTools ∧
  callTool (scenario_env demo_prs []) "health" (mkArgs None None None None) demo_world
    = (Thrown "Unknown tool: health", demo_world).
Proof.
  assert ("health" ∈ tool_name <$> listTools) as Hin
    by (simpl; apply list_elem_of_further, list_elem_of_here).
  split; [exact Hin|].
  by apply (X11_listed_health_tool_is_not_served (scenario_env demo_prs []) "health"
              (mkArgs None None None None) demo_world Hin).
Defined.

(** ** The server on plain standard input *)

Lemma stdio_enqueue_cases (E : Env) (params : option ToolArguments) (c : Stdio.Console) :
  (∃ st c', Stdio.enqueueCherryPickJob E params c = (Returned st, c') ∧
            Stdio.stdout c' = Stdio.stdout c ∧
            ∃ args, params = Some args ∧
                    Stdio.falsy (arg_repository args) = false ∧
                    Stdio.falsy (arg_targetBranch args) = false ∧
                    Stdio.falsy (arg_prFilterQuery args) = false) ∨
  (∃ e c', Stdio.enqueueCherryPickJob E params c = (Thrown e, c') ∧
           Stdio.stdout c' = Stdio.stdout c ∧ Stdio.drawn c' = Stdio.drawn c ∧ e ≠ "" ∧
           ∀ args, params = Some args →
                   Stdio.falsy (arg_repository args) || Stdio.falsy (arg_targetBranch args)
                   || Stdio.falsy (arg_prFilterQuery args) = true).
Proof.
  destruct params as [args|]; simpl.
  - destruct (Stdio.falsy (arg_repository args) || Stdio.falsy (arg_targetBranch args)
              || Stdio.falsy (arg_prFilterQuery args)) eqn:Hf.
    + right. eexists _, _. split_and!; [reflexivity|done|done|done|].
      by intros ? [= <-].
    + left. apply orb_false_iff in Hf as [[? ?]%orb_false_iff ?].
      eexists _, _. split_and!; [reflexivity|done|]. by exists args.
  - right. eexists _, _. split_and!; [reflexivity|done|done|done|done].
Qed.

(** X12.  A line that is no JSON is logged, with its text, on the
    standard error and gets no response.  A request gets exactly one
    response, under its own identifier, which holds either a result or
    an error, never both and never neither; the error code is always
    -32000 and the error message is never empty.  The response holds a
    result exactly when the request is a ping or a submission with its
    three required fields. *)
Theorem X12_one_response_per_request (E : Env) (JSON_parse : string → option Stdio.McpRequest)
    (line : string) (c : Stdio.Console) :
  match JSON_parse line with
  | None =>
      Stdio.stderr (Stdio.on_line E JSON_parse line c)
        = Stdio.stderr c ++ ["[ERROR] Failed to parse input JSON: " +:+ line] ∧
      Stdio.stdout (Stdio.on_line E JSON_parse line c) = Stdio.stdout c ∧
      Stdio.drawn (Stdio.on_line E JSON_parse line c) = Stdio.drawn c
  | Some request =>
      ∃ response,
        Stdio.stdout (Stdio.on_line E JSON_parse line c) = Stdio.stdout c ++ [response] ∧
        Stdio.resp_id response = Stdio.req_id request ∧
        (is_Some (Stdio.result response) ↔ served request) ∧
        match Stdio.result response, Stdio.error response with
        | Some _, None => True
        | None, Some e => Stdio.code e = (-32000)%Z ∧ Stdio.error_message e ≠ ""
        | _, _ => False
        end
  end.
Proof.
  unfold Stdio.on_line. destruct (JSON_parse line) as [request|]; [|done].
  unfold Stdio.process, served.
  destruct (String.eqb_spec (Stdio.method request) "tasks/cherryPickFromPrFilter") as [Hm|Hm].
  - destruct (stdio_enqueue_cases E (Stdio.params request) c)
      as [(st & c' & -> & Hout & Hargs)|(e & c' & -> & Hout & _ & He & Hargs)].
    + eexists. simpl. rewrite Hout. split_and!; [done|done| |done].
      split; [intros _; right; by split|by eexists].
    + eexists. simpl. rewrite Hout. split_and!; [done|done| |].
      * split; [by intros [? [=]]|].
        intros [Hp|(_ & args & Hp & H1 & H2 & H3)]; [by rewrite Hm in Hp|].
        specialize (Hargs args Hp). by rewrite H1, H2, H3 in Hargs.
      * split; [done|]. unfold truthy. by destruct (String.eqb_spec e "").
  - destruct (String.eqb_spec (Stdio.method request) "health/ping") as [Hp|Hp].
    + eexists. simpl. split_and!; [done|done| |done]. split; [by left|by eexists].
    + eexists. simpl. split_and!; [done|done| |done].
      split; [by intros [? [=]]|]. by intros [?|[? _]].
Qed.

(** X13.  Called with the same parameters and the same identifiers left
    to draw, the function of this version and [enqueueCherryPickJob] of
    the later one come to the same outcome: both throw the same error or
    both return the same status with the same identifier; they log the
    same lines and draw as many identifiers.  When they return, the later
    version has called the job store; this one holds no store to call. *)
Theorem X13_both_versions_answer_alike (E : Env) (p : CherryPickParamsType)
    (c : Stdio.Console) (w : World) :
  Stdio.drawn c = drawn w →
  ∃ t,
    (Stdio.enqueueCherryPickJob E (Some (as_arguments p)) c).1
      = (enqueueCherryPickJob E p w).1 ∧
    Stdio.drawn (Stdio.enqueueCherryPickJob E (Some (as_arguments p)) c).2
      = drawn (enqueueCherryPickJob E p w).2 ∧
    trace (enqueueCherryPickJob E p w).2 = trace w ++ t ∧
    Stdio.stderr (Stdio.enqueueCherryPickJob E (Some (as_arguments p)) c).2
      = Stdio.stderr c ++ logged t ∧
    Stdio.stdout (Stdio.enqueueCherryPickJob E (Some (as_arguments p)) c).2 = Stdio.stdout c ∧
    (∀ st, (enqueueCherryPickJob E p w).1 = Returned st →
           AddJobToQueue (jobId st) ∈ t).
Proof.
  intros Hd. unfold Stdio.enqueueCherryPickJob, enqueueCherryPickJob, Stdio.falsy.
  rewrite bind_eq. simpl.
  destruct (negb (truthy (repository p)) || negb (truthy (targetBranch p))
            || negb (truthy (prFilterQuery p))); simpl.
  - exists [Log ("[INFO] Enqueuing job for repo: " +:+ repository p)].
    split_and!; try done.
  - rewrite Hd.
    exists [Log ("[INFO] Enqueuing job for repo: " +:+ repository p); RandomUUID;
            AddJobToQueue (uuid E (drawn w));
            Log ("[INFO] Job enqueued with ID: " +:+ uuid E (drawn w))].
    split_and!; try done.
    + by rewrite <- !app_assoc.
    + by rewrite <- !app_assoc.
    + intros st [= <-]. simpl. apply list_elem_of_further, list_elem_of_further, list_elem_of_here.
Qed.

Lemma X13_witness :
  let E := scenario_env demo_prs [] in
  let c := Stdio.mkConsole 0 [] [] in
  Stdio.drawn c = drawn demo_world ∧
  (Stdio.enqueueCherryPickJob E (Some (as_arguments demo_params)) c).1
    = Returned (mkJobStatus (uuid E 0) queued "Cherry-pick job has been queued successfully.") ∧
  ∃ t,
    (Stdio.enqueueCherryPickJob E (Some (as_arguments demo_params)) c).1
      = (enqueueCherryPickJob E demo_params demo_world).1 ∧
    Stdio.drawn (Stdio.enqueueCherryPickJob E (Some (as_arguments demo_params)) c).2
      = drawn (enqueueCherryPickJob E demo_params demo_world).2 ∧
    trace (enqueueCherryPickJob E demo_params demo_world).2 = trace demo_world ++ t ∧
    Stdio.stderr (Stdio.enqueueCherryPickJob E (Some (as_arguments demo_params)) c).2
      = Stdio.stderr c ++ logged t ∧
    Stdio.stdout (Stdio.enqueueCherryPickJob E (Some (as_arguments demo_params)) c).2
      = Stdio.stdout c ∧
    (∀ st, (enqueueCherryPickJob E demo_params demo_world).1 = Returned st →
           AddJobToQueue (jobId st) ∈ t).
Proof.
  intros E c.
  assert (Stdio.drawn c = drawn demo_world) as Hd by reflexivity.
  split_and!; [exact Hd|vm_compute; reflexivity|].
  exact (X13_both_versions_answer_alike E demo_params c demo_world Hd).
Defined.

(** ** The loop and the job store *)

(** A turn of the loop that takes a job leaves the store as it was but
    for that job, which is in a terminal state. *)
Lemma main_iteration_settles (E : Env) (w : World) (j : Job) (q' : list Job) :
  claim (queue w) = Some (j, q') → NoDup (job_id <$> queue w) →
  ∃ pre j0 post s e,
    queue w = pre ++ j0 :: post ∧ Forall (λ j, job_state j ≠ queued) pre ∧
    job_state j0 = queued ∧ (s = completed ∨ s = failed) ∧
    queue (main_iteration E w).2 = pre ++ mkJob (job_id j0) (job_params j0) s e :: post.
Proof.
  intros Hc Hnd.
  destruct (claim_Some _ _ _ Hc) as (pre & j0 & post & Hq & Hpre & Hj0 & Hj & Hq').
  assert (∀ s e, finish (job_id j) s e q'
                 = Some (pre ++ mkJob (job_id j0) (job_params j0) s e :: post)) as Hf.
  { intros s e. rewrite Hq', Hj. rewrite Hq in Hnd. apply NoDup_ids_before in Hnd.
    exact (finish_found (job_id j0) s e pre post (set_job_state running None j0)
             Hnd eq_refl eq_refl). }
  set (jobParams := mkJobParams (job_params j) (job_id j)).
  set (w1 := set_queue q' (emit GetNextJob w)).
  pose proof (keeps_queue_processJob E (job_id j) jobParams w1) as Hkeep.
  unfold main_iteration. unfold try_catch at 1. rewrite bind_eq.
  unfold getNextJob at 1. rewrite Hc. fold w1. fold jobParams.
  unfold try_catch. rewrite bind_eq.
  destruct (processJob E (job_id j) jobParams w1) as [[[]|d] w'] eqn:Hp; simpl in Hkeep.
  - exists pre, j0, post, completed, None. split_and!; [done|done|done|by left|].
    rewrite bind_eq. unfold completeJob at 1. rewrite Hkeep. simpl queue. rewrite Hf.
    match goal with |- context [sendWebhook ?p ?s ?e ?w0] =>
      destruct (sendWebhook_returns p s e w0) as (t & -> & _) end.
    done.
  - exists pre, j0, post, failed, (Some d). split_and!; [done|done|done|by right|].
    rewrite bind_eq. unfold log at 1.
    assert ((if includes "cherry-pick" d then mret () else mret () : M ())
            = mret ()) as -> by (by destruct (includes _ _)).
    rewrite bind_eq. unfold mret at 1, M_ret at 1.
    rewrite bind_eq. unfold failJob at 1. simpl queue. rewrite Hkeep. simpl queue. rewrite Hf.
    match goal with |- context [sendWebhook ?p ?s ?e ?w0] =>
      destruct (sendWebhook_returns p s e w0) as (t & -> & _) end.
    done.
Qed.

(** One turn: the oldest queued job, if any, is settled; nothing else in
    the store moves. *)
Lemma main_iteration_store (E : Env) (w : World) :
  NoDup (job_id <$> queue w) → Forall (λ j, job_state j ≠ running) (queue w) →
  job_id <$> queue (main_iteration E w).2 = job_id <$> queue w ∧
  Forall (λ j, job_state j ≠ running) (queue (main_iteration E w).2) ∧
  queued_ids (queue (main_iteration E w).2) = drop 1 (queued_ids (queue w)) ∧
  (∀ j, j ∈ queue w → job_state j ≠ queued → j ∈ queue (main_iteration E w).2).
Proof.
  intros Hnd Hrun. destruct (claim (queue w)) as [[j q']|] eqn:Hc.
  - destruct (main_iteration_settles E w j q' Hc Hnd)
      as (pre & j0 & post & s & e & Hq & Hpre & Hj0 & Hs & ->).
    rewrite Hq in Hrun |- *. split_and!.
    + by rewrite !fmap_app, !fmap_cons.
    + apply Forall_app in Hrun as [Hr1 Hr2]. apply Forall_cons in Hr2 as [_ Hr2].
      apply Forall_app. split; [done|]. apply Forall_cons. split; [|done].
      simpl. by destruct Hs as [-> | ->].
    + rewrite !queued_ids_app, (queued_ids_none pre Hpre). simpl.
      assert (queued_ids (j0 :: post) = job_id j0 :: queued_ids post) as ->
        by (unfold queued_ids; by rewrite filter_cons_True).
      unfold queued_ids. rewrite filter_cons_False; [done|].
      simpl. by destruct Hs as [-> | ->].
    + intros j1 Hin Hj1. apply elem_of_app in Hin as [Hin|Hin].
      * apply elem_of_app. by left.
      * apply elem_of_cons in Hin as [->|Hin]; [done|].
        apply elem_of_app. right. by apply list_elem_of_further.
  - rewrite (main_iteration_idle E w Hc). simpl. split_and!; try done.
    apply claim_None in Hc. by rewrite (queued_ids_none _ Hc).
Qed.

(** X14.  Started on a store in which no job is running and no two jobs
    share an identifier, [n] turns of the loop settle the [n] oldest
    queued jobs, oldest first: the jobs still queued are the ones that
    were queued, less the first [n].  No job is left running between
    turns, no job enters or leaves the store, and a job that was already
    in a terminal state is still there as it was. *)
Theorem X14_loop_settles_queued_jobs_oldest_first (E : Env) (n : nat) (w : World) :
  NoDup (job_id <$> queue w) → Forall (λ j, job_state j ≠ running) (queue w) →
  job_id <$> queue (main_loop E n w).2 = job_id <$> queue w ∧
  Forall (λ j, job_state j ≠ running) (queue (main_loop E n w).2) ∧
  queued_ids (queue (main_loop E n w).2) = drop n (queued_ids (queue w)) ∧
  (∀ j, j ∈ queue w → job_state j ≠ queued → j ∈ queue (main_loop E n w).2).
Proof.
  revert w. induction n as [|n IH]; intros w Hnd Hrun; [done|].
  destruct (main_iteration_store E w Hnd Hrun) as (Hids & Hrun1 & Hqd & Hkept).
  simpl. rewrite bind_eq.
  destruct (main_iteration_polls_once E w) as (w1 & t & Hw1 & _).
  rewrite Hw1 in *. simpl in *.
  destruct (IH w1) as (Hids' & Hrun' & Hqd' & Hkept'); [by rewrite Hids|done|].
  split_and!.
  - by rewrite Hids', Hids.
  - done.
  - by rewrite Hqd', Hqd, drop_drop.
  - intros j Hin Hj. apply Hkept'; [by apply Hkept|done].
Qed.

(** The same submission twice, then two turns: both jobs are settled,
    the first as completed and the second as failed, and none is queued
    or running. *)
Lemma X14_witness :
  let E := scenario_env demo_prs [] in
  let w := (enqueueCherryPickJob E demo_params (enqueueCherryPickJob E demo_params demo_clone).2).2 in
  NoDup (job_id <$> queue w) ∧ Forall (λ j, job_state j ≠ running) (queue w) ∧
  queued_ids (queue w) = ["job-0"; "job-1"] ∧
  job_state <$> queue (main_loop E 2 w).2 = [completed; failed] ∧
  job_id <$> queue (main_loop E 2 w).2 = job_id <$> queue w ∧
  Forall (λ j, job_state j ≠ running) (queue (main_loop E 2 w).2) ∧
  queued_ids (queue (main_loop E 2 w).2) = drop 2 (queued_ids (queue w)) ∧
  (∀ j, j ∈ queue w → job_state j ≠ queued → j ∈ queue (main_loop E 2 w).2).
Proof.
  intros E w.
  assert (NoDup (job_id <$> queue w)) as Hnd.
  { vm_compute. apply NoDup_cons. split; [|apply NoDup_singleton].
    intros Hin%list_elem_of_singleton. discriminate. }
  assert (Forall (λ j, job_state j ≠ running) (queue w)) as Hrun.
  { vm_compute. repeat constructor; discriminate. }
  split; [exact Hnd|]. split; [exact Hrun|].
  split; [vm_compute; reflexivity|]. split; [vm_compute; reflexivity|].
  exact (X14_loop_settles_queued_jobs_oldest_first E 2 w Hnd Hrun).
Defined.
